(** * LinkSnap content script: link-mention lifecycle engine

    A shallow embedding of [src/unnamed/part_000] (the [LinkSnapProcessor]
    content script): the [URL_REGEX] scanner, [generateId], the reconciliation
    [updateHighlights], the fetch orchestrator [processLink] and
    [processPendingLinks], the context injector [injectContext] and the
    submission guard [handleSubmitAttempt].

    Strings are Stdlib [string]s of 8-bit code units (read as Latin-1);
    JavaScript's [\s] and [\w] classes are written out on that range. A JS [Map] and [Set] keep
    insertion order, so they are association lists here. *)

From Stdlib Require Import String Ascii List Bool Arith Lia.
Import ListNotations.
Open Scope list_scope.
Open Scope string_scope.

(* ------------------------------------------------------------------ *)
(** ** Characters and small string helpers *)

Definition code (c : ascii) : nat := nat_of_ascii c.

(** JS [\s] on code units 0-255 (read as Latin-1): tab, LF, VT, FF, CR,
    space and the no-break space 160. *)
Definition is_space (c : ascii) : bool :=
  let n := code c in
  (((9 <=? n) && (n <=? 13)) || (n =? 32) || (n =? 160))%nat.

(** JS [\w]: [A-Za-z0-9_]. *)
Definition is_word (c : ascii) : bool :=
  let n := code c in
  (((48 <=? n) && (n <=? 57)) || ((65 <=? n) && (n <=? 90))
   || ((97 <=? n) && (n <=? 122)) || (n =? 95))%nat.

Definition nl : string := String (ascii_of_nat 10%nat) EmptyString.

(** [s.startsWith(p)] returning the rest. *)
Fixpoint strip_prefix (p s : string) : option string :=
  match p, s with
  | EmptyString, _ => Some s
  | String a p', String b s' =>
      if Ascii.eqb a b then strip_prefix p' s' else None
  | String _ _, EmptyString => None
  end.

(** Longest prefix whose characters satisfy [f], and the rest. *)
Fixpoint span (f : ascii -> bool) (s : string) : string * string :=
  match s with
  | EmptyString => (EmptyString, EmptyString)
  | String c s' =>
      if f c then let '(a, b) := span f s' in (String c a, b)
      else (EmptyString, s)
  end.

(** [text.indexOf(sub)]: the first position where [sub] occurs. *)
Fixpoint index_of_from (i : nat) (sub s : string) : option nat :=
  match strip_prefix sub s with
  | Some _ => Some i
  | None =>
      match s with
      | EmptyString => None
      | String _ s' => index_of_from (S i) sub s'
      end
  end.

Definition index_of (s sub : string) : option nat := index_of_from 0 sub s.

(** [content.includes(sub)]. *)
Definition includes (s sub : string) : bool :=
  match index_of s sub with Some _ => true | None => false end.

(* ------------------------------------------------------------------ *)
(** ** Mention scanner: [text.matchAll(/@link\s+(https?:\/\/[^\s]+)/g)] *)

Record Match := mkMatch {
  m_text : string;   (* match[0] *)
  m_url : string;    (* match[1] *)
  m_index : nat      (* match.index *)
}.

(** One attempt of [URL_REGEX] anchored at the start of [s]. Its
    quantifiers never need to backtrack: [\s+] is followed by ['h'],
    [s?] by [':'], and [[^\s]+] ends the pattern. Returns the matched
    text and the captured URL. *)
Definition regex_at (s : string) : option (string * string) :=
  match strip_prefix "@link" s with
  | None => None
  | Some s1 =>
      let '(ws, s2) := span is_space s1 in
      match ws with
      | EmptyString => None
      | _ =>
          let proto :=
            match strip_prefix "https://" s2 with
            | Some s3 => Some ("https://", s3)
            | None =>
                match strip_prefix "http://" s2 with
                | Some s3 => Some ("http://", s3)
                | None => None
                end
            end in
          match proto with
          | None => None
          | Some (p, s3) =>
              let '(tok, _) := span (fun c => negb (is_space c)) s3 in
              match tok with
              | EmptyString => None
              | _ => Some ("@link" ++ ws ++ p ++ tok, p ++ tok)
              end
          end
      end
  end.

(** Global matching: try at each position left to right; after a match,
    resume right after it (a match is never empty). [fuel] bounds the
    number of positions visited; [scan] gives it the text's length. *)
Fixpoint scan_from (fuel : nat) (pos : nat) (s : string) : list Match :=
  match fuel with
  | O => []
  | S fuel' =>
      match s with
      | EmptyString => []
      | String _ s' =>
          match regex_at s with
          | Some (t, u) =>
              mkMatch t u pos
                :: scan_from fuel' (pos + String.length t)
                     (substring (String.length t) (String.length s) s)
          | None => scan_from fuel' (S pos) s'
          end
      end
  end.

Definition matchAll (text : string) : list Match :=
  scan_from (S (String.length text)) 0 text.

(** [generateId(text) = text.replace(/\W/g, "_")]. *)
Fixpoint generateId (s : string) : string :=
  match s with
  | EmptyString => EmptyString
  | String c s' =>
      String (if is_word c then c else "_"%char) (generateId s')
  end.

(* ------------------------------------------------------------------ *)
(** ** Insertion-ordered maps and sets (JS [Map], [Set], plain object) *)

Definition amap (V : Type) := list (string * V).

Fixpoint map_get {V} (k : string) (m : amap V) : option V :=
  match m with
  | [] => None
  | (k', v) :: m' => if String.eqb k k' then Some v else map_get k m'
  end.

Definition map_has {V} (k : string) (m : amap V) : bool :=
  match map_get k m with Some _ => true | None => false end.

(** [m.set(k, v)] / [obj[k] = v]: overwrite in place, else append. *)
Fixpoint map_set {V} (k : string) (v : V) (m : amap V) : amap V :=
  match m with
  | [] => [(k, v)]
  | (k', v') :: m' =>
      if String.eqb k k' then (k', v) :: m' else (k', v') :: map_set k v m'
  end.

Definition map_delete {V} (k : string) (m : amap V) : amap V :=
  filter (fun kv => negb (String.eqb k (fst kv))) m.

Definition set_has (x : string) (s : list string) : bool :=
  existsb (String.eqb x) s.

Definition set_add (x : string) (s : list string) : list string :=
  if set_has x s then s else s ++ [x].

Definition set_delete (x : string) (s : list string) : list string :=
  filter (fun y => negb (String.eqb x y)) s.

(* ------------------------------------------------------------------ *)
(** ** [findRangeForMatch] on the DOM *)

(** The input's subtree: text nodes and elements. *)
Inductive Node :=
  | TextNode (s : string)
  | ElementNode (children : list Node).

Fixpoint textContent (n : Node) : string :=
  match n with
  | TextNode s => s
  | ElementNode cs =>
      (fix go (cs : list Node) : string :=
         match cs with [] => "" | c :: cs' => textContent c ++ go cs' end) cs
  end.

(** [findTextNode(node)] with [currentIndex]: [inl currentIndex'] when it
    returns [false], [inr (nodeText, index - currentIndex)] for the text
    node where it calls [setStart]. *)
Fixpoint findTextNode (index : nat) (n : Node) (currentIndex : nat) : nat + (string * nat) :=
  match n with
  | TextNode s =>
      if Nat.ltb index (currentIndex + String.length s) then inr (s, index - currentIndex)
      else inl (currentIndex + String.length s)
  | ElementNode cs =>
      (fix go (cs : list Node) (cur : nat) : nat + (string * nat) :=
         match cs with
         | [] => inl cur
         | c :: cs' =>
             match findTextNode index c cur with
             | inr r => inr r
             | inl cur' => go cs' cur'
             end
         end) cs currentIndex
  end.

(** The outcome of [findRangeForMatch]: [null]; a range inside one text
    node; the fresh range left unset (no text node reached); or the
    [IndexSizeError] [setEnd] throws when the offset passes the node's end. *)
Inductive RangeResult :=
  | RangeNull
  | RangeIn (nodeText : string) (startOffset endOffset : nat)
  | RangeUnset
  | RangeIndexSizeError.

(** [findRangeForMatch(element, searchText)]: [null] when [indexOf] finds
    nothing; otherwise the walk [findTextNode] from [currentIndex = 0]. *)
Definition findRangeForMatch (element : Node) (searchText : string) : RangeResult :=
  match index_of (textContent element) searchText with
  | None => RangeNull
  | Some index =>
      match findTextNode index element 0 with
      | inl _ => RangeUnset
      | inr (s, off) =>
          if Nat.leb (off + String.length searchText) (String.length s)
          then RangeIn s off (off + String.length searchText)
          else RangeIndexSizeError
      end
  end.

(** The text nodes of a subtree in document order, and their concatenation. *)
Fixpoint text_nodes (n : Node) : list string :=
  match n with
  | TextNode s => [s]
  | ElementNode cs =>
      (fix go (cs : list Node) : list string :=
         match cs with [] => [] | c :: cs' => app (text_nodes c) (go cs') end) cs
  end.

Fixpoint cat (l : list string) : string :=
  match l with [] => "" | s :: l' => s ++ cat l' end.

(** [findTextNode] run over the text nodes alone, in document order. *)
Fixpoint find_list (index : nat) (ts : list string) (currentIndex : nat) : nat + (string * nat) :=
  match ts with
  | [] => inl currentIndex
  | s :: ts' =>
      if Nat.ltb index (currentIndex + String.length s) then inr (s, index - currentIndex)
      else find_list index ts' (currentIndex + String.length s)
  end.

(** Induction on [Node] through the children lists. *)
Section NodeInd.
Variable P : Node -> Prop.
Hypothesis HText : forall s, P (TextNode s).
Hypothesis HElem : forall cs, Forall P cs -> P (ElementNode cs).

Fixpoint Node_ind' (n : Node) : P n :=
  match n with
  | TextNode s => HText s
  | ElementNode cs =>
      HElem cs ((fix go (cs : list Node) : Forall P cs :=
                   match cs with
                   | [] => Forall_nil P
                   | c :: cs' => Forall_cons c (Node_ind' c) (go cs')
                   end) cs)
  end.
End NodeInd.

(* ------------------------------------------------------------------ *)
(** ** Data model *)

Inductive Status := pending | fetching | done | error.

Definition Status_eqb (a b : Status) : bool :=
  match a, b with
  | pending, pending | fetching, fetching | done, done | error, error => true
  | _, _ => false
  end.

(** The collaborator's [metadata] object, with the fields the core reads. *)
Record Metadata := mkMetadata {
  md_title : option string;
  md_description : option string;
  md_error : option string
}.

Record LinkState := mkLinkState {
  ls_url : string;
  ls_status : Status;
  ls_context : option string;
  ls_metadata : option Metadata;
  ls_screenshot : option string;
  ls_error : option string
}.

(** [range] is the object returned by [findRangeForMatch]. *)
Record Highlight := mkHighlight {
  h_id : string;
  h_text : string;
  h_range : RangeResult;
  h_state : LinkState
}.

(** The processor's mutable fields, with the durable [contextCache]. *)
Record State := mkState {
  highlights : amap Highlight;
  pendingLinks : list string;
  contextCache : amap LinkState
}.

Definition pending_state (url : string) : LinkState :=
  mkLinkState url pending None None None None.

(* ------------------------------------------------------------------ *)
(** ** Reconciliation: [updateHighlights] *)

(** First loop of [updateHighlights]: for each match, record its id and,
    if the id is new, call [findRangeForMatch]; a non-null range gives a
    [pending] highlight and a pending URL. The maps are mutated in place,
    so when [findRangeForMatch] throws [IndexSizeError] the loop stops
    with what it has done so far; the flag records the throw. *)
Fixpoint add_loop (inputDiv : Node) (matches : list Match)
    (hs : amap Highlight) (pl currentIds : list string)
  : amap Highlight * list string * list string * bool :=
  match matches with
  | [] => (hs, pl, currentIds, false)
  | m :: matches' =>
      let id := generateId (m_text m) in
      let currentIds' := set_add id currentIds in
      if map_has id hs then add_loop inputDiv matches' hs pl currentIds'
      else match findRangeForMatch inputDiv (m_text m) with
           | RangeNull => add_loop inputDiv matches' hs pl currentIds'
           | RangeIndexSizeError => (hs, pl, currentIds', true)
           | (RangeIn _ _ _ | RangeUnset) as range =>
               add_loop inputDiv matches'
                 (map_set id (mkHighlight id (m_text m) range (pending_state (m_url m))) hs)
                 (set_add (m_url m) pl) currentIds'
           end
  end.

(** Second loop: over the map's entries, delete each highlight whose id is
    not in [currentIds] and drop its URL from [pendingLinks]. *)
Definition del_step (currentIds : list string)
    (acc : amap Highlight * list string) (e : string * Highlight)
  : amap Highlight * list string :=
  let '(hs, pl) := acc in
  let '(id, h) := e in
  if set_has id currentIds then (hs, pl)
  else (map_delete id hs, set_delete (ls_url (h_state h)) pl).

(** One run of the async [updateHighlights]: [surface] is the input
    element, [None] when there is none (the early return); its text is
    [inputDiv.textContent]. The flag is [true] when the returned promise
    rejects: the first loop threw, so the second loop and the render are
    skipped, and the highlights and pending URLs added before the throw
    stay. *)
Definition updateHighlights_run (surface : option Node) (st : State) : State * bool :=
  match surface with
  | None => (st, false)
  | Some inputDiv =>
      let text := textContent inputDiv in
      let '(hs1, pl1, currentIds, thrown) :=
        add_loop inputDiv (matchAll text) (highlights st) (pendingLinks st) [] in
      if thrown then (mkState hs1 pl1 (contextCache st), true)
      else
        let '(hs2, pl2) := fold_left (del_step currentIds) hs1 (hs1, pl1) in
        (mkState hs2 pl2 (contextCache st), false)
  end.

(** The processor's fields after [updateHighlights], whether or not it threw. *)
Definition updateHighlights (surface : option Node) (st : State) : State :=
  fst (updateHighlights_run surface st).

(** Whether the promise of [updateHighlights] rejects. *)
Definition updateHighlights_rejects (surface : option Node) (st : State) : bool :=
  snd (updateHighlights_run surface st).

Definition empty_state : State := mkState [] [] [].

(* ------------------------------------------------------------------ *)
(** ** Fetch orchestrator: [processLink] *)

(** [response.data] as built by the background script. *)
Record ResponseData := mkResponseData {
  rd_markdown : string;
  rd_metadata : option Metadata;
  rd_screenshot : option string   (* [originalData?.screenshot] *)
}.

(** What [await this.fetchLinkContext(url)] yields: a response object
    [{success, data?, error?}], [undefined] (no answer), or a rejection
    carrying an [Error] with a message. *)
Inductive Response :=
  | RValue (success : bool) (data : option ResponseData) (err : option string)
  | RUndefined
  | RThrow (msg : string).

(** Observable effects, in program order. *)
Inductive Effect :=
  | EFetch (url : string)
  | EDelay (ms : nat)
  | EHighlight (id : string) (st : LinkState)
  | ESetCache (c : amap LinkState).

(** [updateHighlightState]: assign [state] if the highlight is still in the map. *)
Definition updateHighlightState (id : string) (s : LinkState) (hs : amap Highlight)
  : amap Highlight :=
  match map_get id hs with
  | Some h => map_set id (mkHighlight (h_id h) (h_text h) (h_range h) s) hs
  | None => hs
  end.

(** [response.success && response.data]. *)
Definition resp_data (r : Response) : option ResponseData :=
  match r with
  | RValue true (Some d) _ => Some d
  | _ => None
  end.

Definition truthy (o : option string) : bool :=
  match o with Some s => negb (String.eqb s "") | None => false end.

(** [error.message] in the [catch] block. A non-success response is
    turned into [new Error(response.data?.metadata?.error || "Unknown error")];
    reading [.success] of [undefined] raises a [TypeError]. *)
Definition failure_message (r : Response) : string :=
  match r with
  | RThrow msg => msg
  | RUndefined => "Cannot read properties of undefined (reading 'success')"
  | RValue _ data _ =>
      match data with
      | Some d =>
          match rd_metadata d with
          | Some m =>
              match md_error m with
              | Some e => if truthy (Some e) then e else "Unknown error"
              | None => "Unknown error"
              end
          | None => "Unknown error"
          end
      | None => "Unknown error"
      end
  end.

Definition done_state (url : string) (d : ResponseData) : LinkState :=
  mkLinkState url done (Some (rd_markdown d)) (rd_metadata d)
    (if truthy (rd_screenshot d) then rd_screenshot d else None) None.

Definition error_state (url : string) (msg : string) : LinkState :=
  mkLinkState url error None None None (Some msg).

(** [for (let attempt = 0; attempt < 3; attempt++)]: [n] iterations remain.
    [fetch attempt] is the collaborator's answer to that attempt. *)
Fixpoint attempt_loop (n attempt : nat) (fetch : nat -> Response)
    (id url : string) (cache : amap LinkState) (hs : amap Highlight)
  : amap Highlight * amap LinkState * list Effect :=
  match n with
  | O => (hs, cache, [])
  | S n' =>
      let r := fetch attempt in
      match resp_data r with
      | Some d =>
          let newState := done_state url d in
          let cache' := map_set url newState cache in
          (updateHighlightState id newState hs, cache',
           [EFetch url; EHighlight id newState; ESetCache cache'])
      | None =>
          if Nat.eqb attempt 2 then
            let errorState := error_state url (failure_message r) in
            let cache' := map_set url errorState cache in
            let '(hs2, c2, e2) :=
              attempt_loop n' (S attempt) fetch id url cache'
                (updateHighlightState id errorState hs) in
            (hs2, c2, app [EFetch url; EHighlight id errorState; ESetCache cache'] e2)
          else
            let '(hs2, c2, e2) := attempt_loop n' (S attempt) fetch id url cache hs in
            (hs2, c2, app [EFetch url; EDelay (1000 * (attempt + 1))] e2)
      end
  end.

(** [processLink(id, url)]; [cache] is the value read from the durable
    [contextCache] ([?? {}]). Returns the highlights, the durable cache
    afterwards, and the effects. *)
Definition processLink (fetch : nat -> Response) (id url : string)
    (cache : amap LinkState) (hs : amap Highlight)
  : amap Highlight * amap LinkState * list Effect :=
  match map_get url cache with
  | Some cached => (updateHighlightState id cached hs, cache, [EHighlight id cached])
  | None => attempt_loop 3 0 fetch id url cache hs
  end.

Definition fetch_count (es : list Effect) : nat :=
  length (filter (fun e => match e with EFetch _ => true | _ => false end) es).

(** The values passed to [contextCache.setValue]. *)
Definition cache_writes (es : list Effect) : list (amap LinkState) :=
  flat_map (fun e => match e with ESetCache c => [c] | _ => [] end) es.

Fixpoint delays (es : list Effect) : list nat :=
  match es with
  | [] => []
  | EDelay ms :: es' => ms :: delays es'
  | _ :: es' => delays es'
  end.

(* ------------------------------------------------------------------ *)
(** ** [processPendingLinks] *)

Definition set_status (s : Status) (h : Highlight) : Highlight :=
  let l := h_state h in
  mkHighlight (h_id h) (h_text h) (h_range h)
    (mkLinkState (ls_url l) s (ls_context l) (ls_metadata l) (ls_screenshot l) (ls_error l)).

(** The synchronous prefix of each mapped task: look up
    [generateId(`@link ${url}`)]; if [pending], mark it [fetching] and
    schedule [processLink(id, url)]. *)
Definition dispatch (hs : amap Highlight) (urls : list string)
  : amap Highlight * list (string * string) :=
  fold_left
    (fun '(hs, jobs) url =>
       let id := generateId ("@link " ++ url) in
       match map_get id hs with
       | Some h =>
           if Status_eqb (ls_status (h_state h)) pending
           then (map_set id (set_status fetching h) hs, app jobs [(id, url)])
           else (hs, jobs)
       | None => (hs, jobs)
       end)
    urls (hs, []).

(** The scheduled [processLink] calls, in one schedule of [Promise.all]:
    each call runs to its end before the next one resumes. Every call
    issues [contextCache.getValue()] in the synchronous [map], before any
    call writes, so each one reads the cache [cache] the pass started with
    and writes that value with its own entry set; the durable cache is the
    value of the last [setValue] so far. *)
Definition run_jobs (fetch : string -> nat -> Response) (jobs : list (string * string))
    (hs : amap Highlight) (cache : amap LinkState)
  : amap Highlight * amap LinkState * list Effect :=
  fold_left
    (fun '(hs, durable, es) '(id, url) =>
       let '(hs', _, es') := processLink (fetch url) id url cache hs in
       (hs', last (cache_writes es') durable, app es es'))
    jobs (hs, cache, []).

Definition processPendingLinks (fetch : string -> nat -> Response) (st : State)
  : State * list Effect :=
  let '(hs1, jobs) := dispatch (highlights st) (pendingLinks st) in
  let '(hs2, cache2, es) := run_jobs fetch jobs hs1 (contextCache st) in
  (mkState hs2 [] cache2, es).

(* ------------------------------------------------------------------ *)
(** ** Context injector: [injectContext] *)

(** What an iteration appends: a paragraph to the input, and the
    screenshot handed to [pasteImageFromUrl] (which targets [body]). *)
Inductive Injection :=
  | IParagraph (text : string)
  | IPasteImage (url : string).

(** [contextText], with the [# title] header when [title && title !== description]. *)
Definition context_text (l : LinkState) (ctx : string) : string :=
  let base := nl ++ nl ++ "Context for " ++ ls_url l ++ ":" ++ nl ++ ctx in
  match ls_metadata l with
  | Some md =>
      match md_title md with
      | Some title =>
          if truthy (Some title)
             && negb (match md_description md with
                      | Some d => String.eqb title d
                      | None => false
                      end)
          then nl ++ nl ++ "# " ++ title ++ nl ++ nl ++ base
          else base
      | None => base
      end
  | None => base
  end.

(** One loop iteration; [content] is [inputDiv.textContent] read once
    before the loop. *)
Definition inject_one (content : string) (h : Highlight) : list Injection :=
  let l := h_state h in
  let linkText := "@link " ++ ls_url l in
  match ls_context l with
  | Some ctx =>
      if Status_eqb (ls_status l) done && truthy (Some ctx) && includes content linkText
      then IParagraph (context_text l ctx)
             :: (if truthy (ls_screenshot l)
                 then match ls_screenshot l with Some s => [IPasteImage s] | None => [] end
                 else [])
      else []
  | None => []
  end.

(** [injectContext()]: what is appended, and [injectedAny]. *)
Definition injectContext (surface : option string) (hs : amap Highlight)
  : list Injection * bool :=
  match surface with
  | None => ([], false)
  | Some content =>
      let out := flat_map (fun e => inject_one content (snd e)) hs in
      (out, existsb (fun e => match inject_one content (snd e) with
                              | [] => false | _ => true end) hs)
  end.

(** Paragraph texts appended to the input element. *)
Definition paragraphs (is : list Injection) : list string :=
  flat_map (fun i => match i with IParagraph t => [t] | IPasteImage _ => [] end) is.

(* ------------------------------------------------------------------ *)
(** ** Submission guard: [handleSubmitAttempt] *)

Inductive Trigger := click | enter.

Record Guard := mkGuard {
  isProcessing : bool;
  shouldBypassInterception : bool;
  loadingVisible : bool
}.

(** Steps of the [try] block, in order. *)
Inductive Step :=
  | ShowLoading | ProcessPending | InjectContext | SetBypass
  | TriggerNative (t : Trigger) | SettleDelay.

Definition body (t : Trigger) : list Step :=
  [ShowLoading; ProcessPending; InjectContext; SetBypass; TriggerNative t; SettleDelay].

Inductive GuardEffect :=
  | GStep (s : Step)
  | GShowError
  | GHideLoading.

Definition apply_step (s : Step) (g : Guard) : Guard :=
  match s with
  | ShowLoading => mkGuard (isProcessing g) (shouldBypassInterception g) true
  | SetBypass => mkGuard (isProcessing g) true (loadingVisible g)
  | _ => g
  end.

(** Run the [try] block; [faults s = true] when step [s] throws. Returns
    the guard, the effects, and whether the [catch] ran. *)
Fixpoint run_body (faults : Step -> bool) (ss : list Step) (g : Guard)
  : Guard * list GuardEffect * bool :=
  match ss with
  | [] => (g, [], false)
  | s :: ss' =>
      if faults s then (g, [], true)
      else let '(g', es, f) := run_body faults ss' (apply_step s g) in
           (g', GStep s :: es, f)
  end.

(** The guard after the first [k] steps of the [try] block ran. *)
Definition guard_after (k : nat) (t : Trigger) (g : Guard) : Guard :=
  fold_left (fun g s => apply_step s g) (firstn k (body t))
    (mkGuard true (shouldBypassInterception g) (loadingVisible g)).

Definition handleSubmitAttempt (faults : Step -> bool) (t : Trigger) (g : Guard)
  : Guard * list GuardEffect :=
  if isProcessing g then (g, [])
  else
    let g0 := mkGuard true (shouldBypassInterception g) (loadingVisible g) in
    let '(g1, es, caught) := run_body faults (body t) g0 in
    (* finally *)
    (mkGuard false false false,
     app es (app (if caught then [GShowError] else []) [GHideLoading])).

(** What happens to a send gesture (Enter in the input, or a click on the
    send button) at the capture listeners. *)
Inductive GestureOutcome :=
  | NotIntercepted        (* bypass flag set: native action proceeds *)
  | Intercepted (g : Guard) (es : list GuardEffect).

Definition on_send_gesture (faults : Step -> bool) (t : Trigger) (g : Guard)
  : GestureOutcome :=
  if shouldBypassInterception g then NotIntercepted
  else let '(g', es) := handleSubmitAttempt faults t g in Intercepted g' es.

(* ------------------------------------------------------------------ *)
(** ** Observations used in the statements *)

(** The highlight the first loop of [updateHighlights], when it does not
    throw, creates for a new id [k] out of the matches [ms]: the one of
    the first match with that id. *)
Definition new_in (inputDiv : Node) (ms : list Match) (k : string) : option Highlight :=
  match find (fun m => String.eqb (generateId (m_text m)) k) ms with
  | Some m =>
      match findRangeForMatch inputDiv (m_text m) with
      | RangeNull | RangeIndexSizeError => None
      | range => Some (mkHighlight k (m_text m) range (pending_state (m_url m)))
      end
  | None => None
  end.


(** The ids of the current mentions ([currentIds]). *)
Definition mention_ids (text : string) : list string :=
  map (fun m => generateId (m_text m)) (matchAll text).

(** Terminal states: the only ones meant for the durable cache. *)
Definition terminal (l : LinkState) : bool :=
  match ls_status l with done | error => true | pending | fetching => false end.

Definition all_terminal (c : amap LinkState) : Prop :=
  forall u l, In (u, l) c -> terminal l = true.

(** The injected block as the specification words it (a second
    definition, compared with [injectContext] in claim C5): for a [done]
    highlight with fetched content whose [@link <url>] text is in the
    surface, the line [Context for <url>:] and the content, after a
    [# <title>] header line when the metadata's title is set and differs
    from its description. *)
Definition title_header (l : LinkState) : string :=
  match ls_metadata l with
  | Some md =>
      match md_title md with
      | Some title =>
          if truthy (Some title) && negb (match md_description md with
                                         | Some d => String.eqb title d
                                         | None => false
                                         end)
          then nl ++ nl ++ "# " ++ title ++ nl ++ nl
          else ""
      | None => ""
      end
  | None => ""
  end.

Definition claim_block (content : string) (l : LinkState) : option string :=
  match ls_status l, ls_context l with
  | done, Some ctx =>
      if truthy (Some ctx) && includes content ("@link " ++ ls_url l)
      then Some (title_header l ++ nl ++ nl ++ "Context for " ++ ls_url l ++ ":" ++ nl ++ ctx)
      else None
  | _, _ => None
  end.

(** The processor's operations between which its fields are observed:
    a reconciliation pass, and a [processPendingLinks] pass. *)
Inductive Op :=
  | OUpdate (surface : option Node)
  | OProcess (fetch : string -> nat -> Response).

Definition run_op (st : State) (o : Op) : State :=
  match o with
  | OUpdate surface => updateHighlights surface st
  | OProcess fetch => fst (processPendingLinks fetch st)
  end.

Definition run_ops (ops : list Op) (st : State) : State := fold_left run_op ops st.

(** What holds of the store and the pending set between operations: one
    entry per id, and every pending URL is the URL of a live highlight. *)
Definition store_inv (st : State) : Prop :=
  NoDup (map fst (highlights st))
  /\ forall u, In u (pendingLinks st) ->
       exists k h, map_get k (highlights st) = Some h /\ ls_url (h_state h) = u.


(** A scanner match, as [URL_REGEX] defines it. *)
Definition mention_shape (m : Match) : Prop :=
  exists ws p tok,
    m_text m = "@link" ++ ws ++ m_url m /\ m_url m = p ++ tok
    /\ ws <> EmptyString /\ tok <> EmptyString
    /\ (p = "https://" \/ p = "http://")
    /\ (forall i c, String.get i ws = Some c -> is_space c = true).

Definition example_done : LinkState :=
  mkLinkState "http://a" done (Some "body") None None None.

(* ------------------------------------------------------------------ *)
(** ** [debounce] and [handleMutation] *)

(** [debounce(func, wait)]: [timeout] is the deadline of the timer the
    wrapper set last ([None] before its first call). [calls] are the times
    of the wrapper's calls; the result is the times at which [func] runs.
    At a call, a timer whose deadline has passed has run already; any other
    is cancelled by [clearTimeout]. (A deadline equal to the call's time is
    counted as cancelled; no statement below depends on that case.) *)
Fixpoint debounce_from (wait : nat) (timeout : option nat) (calls : list nat) : list nat :=
  match calls with
  | [] => match timeout with Some d => [d] | None => [] end
  | t :: calls' =>
      app (match timeout with Some d => if Nat.ltb d t then [d] else [] | None => [] end)
          (debounce_from wait (Some (t + wait)) calls')
  end.

Definition debounce (wait : nat) (calls : list nat) : list nat :=
  debounce_from wait None calls.

(** [handleMutation = debounce(() => this.updateHighlights(), 100)]: the
    times of the reconciliation passes for mutations observed at [calls]. *)
Definition handleMutation (calls : list nat) : list nat := debounce 100 calls.

(** Each call comes less than [wait] after the one before it. *)
Fixpoint burst (wait t : nat) (calls : list nat) : Prop :=
  match calls with
  | [] => True
  | t' :: calls' => t' < t + wait /\ burst wait t' calls'
  end.

(* ------------------------------------------------------------------ *)
(** ** Keyboard and click listeners, [triggerNativeSubmission] *)

Record KeyEvent := mkKeyEvent {
  key : string;
  shiftKey : bool
}.

(** What a listener starts. *)
Inductive Reaction :=
  | RSubmit (t : Trigger)     (* [handleSubmitAttempt(t)] *)
  | RProcessPending.          (* [processPendingLinks()] *)

(** A [keydown]. The capture listener on [window] ([setupKeyInterception])
    runs first; when it intercepts it stops propagation, so the bubbling
    listener on [document] ([setupKeyListeners]) never sees the event.
    [focus_in_input]: [activeElement] is the input or lies inside it. *)
Definition on_keydown (bypass focus_in_input : bool) (e : KeyEvent) : list Reaction :=
  if negb bypass && String.eqb (key e) "Enter" && negb (shiftKey e) && focus_in_input
  then [RSubmit enter]
  else if String.eqb (key e) " " || String.eqb (key e) "Enter"
       then [RProcessPending] else [].

(** A [click], at the capture listener of [setupButtonInterception];
    [in_button]: the target is inside the send button. *)
Definition on_click (bypass in_button : bool) : list Reaction :=
  if negb bypass && in_button then [RSubmit click] else [].

(** The events [triggerNativeSubmission] dispatches: a synthetic Enter
    [keydown] on the input, or [submitButton.click()]. *)
Inductive NativeAction :=
  | NKeydown (e : KeyEvent)
  | NClick.

Definition triggerNativeSubmission (button_present input_present : bool) (t : Trigger)
  : list NativeAction :=
  if negb button_present then []
  else match t with
       | enter => if input_present then [NKeydown (mkKeyEvent "Enter" false)] else []
       | click => [NClick]
       end.

(** What the content script's own listeners do with a dispatched event. *)
Definition react (bypass focus_in_input : bool) (a : NativeAction) : list Reaction :=
  match a with
  | NKeydown e => on_keydown bypass focus_in_input e
  | NClick => on_click bypass true
  end.

(* ------------------------------------------------------------------ *)
(** ** [renderHighlights] and [getTooltipText] *)

(** [highlight.state.status] as the string the class name embeds. *)
Definition status_name (s : Status) : string :=
  match s with
  | pending => "pending"
  | fetching => "fetching"
  | done => "done"
  | error => "error"
  end.

Definition getTooltipText (state : LinkState) : string :=
  match ls_status state with
  | pending => "Waiting for you to finish typing..."
  | fetching => "Fetching context..."
  | done => "Context available"
  | error => "Failed to fetch context"
  end.

(** An overlay element: its [className] and its tooltip's [textContent]
    (the position comes from the range's bounding rectangle and is left
    out). *)
Record Rendered := mkRendered {
  className : string;
  tooltipText : string
}.

(** [renderHighlights()]: [None] when there is no overlay (the early
    return); otherwise the overlay's new children, one per entry of
    [this.highlights.values()] in the map's order. *)
Definition renderHighlights (overlay : bool) (hs : amap Highlight) : option (list Rendered) :=
  if overlay then
    Some (map (fun e => mkRendered
                 ("linksnap-highlight linksnap-" ++ status_name (ls_status (h_state (snd e))))
                 (getTooltipText (h_state (snd e)))) hs)
  else None.

(* ------------------------------------------------------------------ *)
(** ** Background script ([src/unnamed/part_001]) and the options popup
    (the [App] component at the end of [src/unnamed/part_000]) *)

Record Options := mkOptions {
  extractSchema : bool;
  captureScreenshot : bool;
  fullPageContent : bool;
  maxTimeout : nat
}.

Definition default_options : Options := mkOptions true true false 30000.

(** An options object read from storage; a field may be absent. *)
Record StoredOptions := mkStoredOptions {
  so_extractSchema : option bool;
  so_captureScreenshot : option bool;
  so_fullPageContent : option bool;
  so_maxTimeout : option nat
}.

Definition override {A} (o : option A) (d : A) : A :=
  match o with Some a => a | None => d end.

(** [initialize]: [this.options = { ...this.options, ...storedOptions }]
    when something is stored. *)
Definition initialize (stored : option StoredOptions) (o : Options) : Options :=
  match stored with
  | Some s =>
      mkOptions (override (so_extractSchema s) (extractSchema o))
                (override (so_captureScreenshot s) (captureScreenshot o))
                (override (so_fullPageContent s) (fullPageContent o))
                (override (so_maxTimeout s) (maxTimeout o))
  | None => o
  end.

(** The popup stores the whole [newOptions] object. *)
Definition stored_of (o : Options) : StoredOptions :=
  mkStoredOptions (Some (extractSchema o)) (Some (captureScreenshot o))
    (Some (fullPageContent o)) (Some (maxTimeout o)).

Inductive OptionChange :=
  | ChangeExtractSchema (b : bool)
  | ChangeCaptureScreenshot (b : bool)
  | ChangeFullPageContent (b : bool)
  | ChangeMaxTimeout (n : nat).

(** The popup's [handleOptionChange(key, value)]: [{ ...options, [key]: value }]. *)
Definition handleOptionChange (o : Options) (c : OptionChange) : Options :=
  match c with
  | ChangeExtractSchema b => mkOptions b (captureScreenshot o) (fullPageContent o) (maxTimeout o)
  | ChangeCaptureScreenshot b => mkOptions (extractSchema o) b (fullPageContent o) (maxTimeout o)
  | ChangeFullPageContent b => mkOptions (extractSchema o) (captureScreenshot o) b (maxTimeout o)
  | ChangeMaxTimeout n => mkOptions (extractSchema o) (captureScreenshot o) (fullPageContent o) n
  end.

(** The wrapper's fields; [bg_app] is the client, named by the API key it
    was built with. *)
Record Background := mkBackground {
  bg_options : Options;
  bg_FirecrawlApp : bool;
  bg_app : option string
}.

Inductive Result (A : Type) :=
  | Ok (a : A)
  | Throw (msg : string).
Arguments Ok {A}.
Arguments Throw {A}.

Definition getApiKey (storedKey : option string) : Result string :=
  match storedKey with
  | Some k => if truthy (Some k) then Ok k else Throw "Firecrawl API key not found"
  | None => Throw "Firecrawl API key not found"
  end.

(** [getApp]; the dynamic import of the bundled module is taken to succeed. *)
Definition getApp (storedKey : option string) (bg : Background) : Background * Result string :=
  match bg_app bg with
  | Some a => (bg, Ok a)
  | None =>
      match getApiKey storedKey with
      | Ok k => (mkBackground (bg_options bg) true (Some k), Ok k)
      | Throw m => (mkBackground (bg_options bg) true None, Throw m)
      end
  end.

(** Successive [getApp] calls, each seeing the key stored at that time. *)
Fixpoint getApp_calls (keys : list (option string)) (bg : Background) : list (Result string) :=
  match keys with
  | [] => []
  | k :: keys' => let '(bg', r) := getApp k bg in r :: getApp_calls keys' bg'
  end.

Record TechnicalDetails := mkTechnicalDetails {
  technologies : option (list string);
  apis : option (list string);
  frameworks : option (list string)
}.

Record Pricing := mkPricing {
  model : string;
  hasFreeOption : bool;
  startingPrice : option string
}.

(** The extracted object, with the schema's required fields present. *)
Record ExtractData := mkExtractData {
  title : string;
  summary : string;
  keyPoints : list string;
  technicalDetails : option TechnicalDetails;
  pricing : option Pricing
}.

(** [Array.prototype.join]. *)
Fixpoint join (sep : string) (l : list string) : string :=
  match l with
  | [] => ""
  | [x] => x
  | x :: l' => x ++ sep ++ join sep l'
  end.

(** One of the three [technicalDetails] lists: heading, [map(t => `- ${t}`).join("\n")], newline. *)
Definition list_section (heading : string) (o : option (list string)) : string :=
  match o with
  | Some l => heading ++ nl ++ join nl (map (fun t => "- " ++ t) l) ++ nl
  | None => ""
  end.

Definition formatExtractedData (x : ExtractData) : string :=
  let md := "# " ++ title x ++ nl ++ nl in
  let md := md ++ "## Summary" ++ nl ++ summary x ++ nl ++ nl in
  let md := md ++ "## Key Points" ++ nl in
  let md := fold_left (fun md point => md ++ "- " ++ point ++ nl) (keyPoints x) md in
  let md :=
    match technicalDetails x with
    | Some td =>
        md ++ nl ++ "## Technical Details" ++ nl
           ++ list_section "### Technologies" (technologies td)
           ++ list_section "### APIs" (apis td)
           ++ list_section "### Frameworks" (frameworks td)
    | None => md
    end in
  match pricing x with
  | Some p =>
      md ++ nl ++ "## Pricing" ++ nl
         ++ "- Model: " ++ model p ++ nl
         ++ "- Free Option: " ++ (if hasFreeOption p then "Yes" else "No") ++ nl
         ++ (if truthy (startingPrice p)
             then "- Starting Price: " ++ override (startingPrice p) "" ++ nl else "")
  | None => md
  end.

(** Firecrawl's scrape response; [fr_success] is [response.success === true]. *)
Record FirecrawlResponse := mkFirecrawlResponse {
  fr_success : bool;
  fr_error : option string;
  fr_markdown : option string;
  fr_extract : option ExtractData;
  fr_screenshot : option string;
  fr_metadata : option Metadata
}.

Definition empty_metadata : Metadata := mkMetadata None None None.

Record Processed := mkProcessed {
  markdown : string;
  metadata : Metadata;
  originalData : FirecrawlResponse
}.

Definition screenshot_url (s : string) : string :=
  if String.prefix "data:" s then s else "data:image/png;base64," ++ s.

Definition processResponse (r : FirecrawlResponse) : Processed :=
  let md := override (fr_markdown r) "" in
  let md := match fr_extract r with
            | Some x => formatExtractedData x ++ nl ++ nl ++ md
            | None => md
            end in
  let md := if truthy (fr_screenshot r)
            then md ++ nl ++ nl ++ "![Page Screenshot](" ++ screenshot_url (override (fr_screenshot r) "") ++ ")"
            else md in
  mkProcessed md (override (fr_metadata r) empty_metadata) r.

(** The options passed to [app.scrapeUrl]. [formats.push("extract")] runs
    after [scrapeOptions] was built, on the same array, so it is seen. *)
Record ScrapeOptions := mkScrapeOptions {
  formats : list string;
  onlyMainContent : bool;
  timeout : nat;
  has_extract_schema : bool
}.

Definition scrapeOptions_of (o : Options) : ScrapeOptions :=
  let formats := app ["markdown"] (if captureScreenshot o then ["screenshot"] else []) in
  mkScrapeOptions (app formats (if extractSchema o then ["extract"] else []))
    (negb (fullPageContent o)) (maxTimeout o) (extractSchema o).

Inductive FirecrawlOutcome :=
  | FValue (r : FirecrawlResponse)
  | FThrow (msg : string).

(** [{success: true, data}] or [{success: false, error: error.message}]. *)
Inductive ScrapeResult :=
  | ScrapeOk (data : Processed)
  | ScrapeErr (error : string).

(** [scrapeUrl(url)], given the stored key and Firecrawl's answer: the
    wrapper afterwards, the calls made to [app.scrapeUrl], the result. *)
Definition scrapeUrl (storedKey : option string) (fc : FirecrawlOutcome) (url : string)
    (bg : Background) : Background * list (string * ScrapeOptions) * ScrapeResult :=
  let '(bg1, a) := getApp storedKey bg in
  match a with
  | Throw m => (bg1, [], ScrapeErr m)
  | Ok _ =>
      let so := scrapeOptions_of (bg_options bg1) in
      match fc with
      | FThrow m => (bg1, [(url, so)], ScrapeErr m)
      | FValue r =>
          if fr_success r then (bg1, [(url, so)], ScrapeOk (processResponse r))
          else (bg1, [(url, so)],
                ScrapeErr (if truthy (fr_error r) then override (fr_error r) "" else "Scraping failed"))
      end
  end.

(** The message the content script's [fetchLinkContext] resolves with. *)
Definition to_response (r : ScrapeResult) : Response :=
  match r with
  | ScrapeOk p =>
      RValue true (Some (mkResponseData (markdown p) (Some (metadata p))
                           (fr_screenshot (originalData p)))) None
  | ScrapeErr m => RValue false None (Some m)
  end.

(* ------------------------------------------------------------------ *)
(** ** Tests on concrete inputs *)

Example matchAll_two :
  map m_text (matchAll "see @link https://a.io and @link  http://b x")
  = ["@link https://a.io"; "@link  http://b"].
Proof. reflexivity. Qed.

Example generateId_ex :
  generateId "@link https://a.io" = "_link_https___a_io".
Proof. reflexivity. Qed.

Example updateHighlights_ex :
  let el := TextNode "a @link http://x b" in
  map fst (highlights (updateHighlights (Some el) empty_state)) = ["_link_http___x"]
  /\ pendingLinks (updateHighlights (Some el) empty_state) = ["http://x"]
  /\ map (fun e => h_range (snd e)) (highlights (updateHighlights (Some el) empty_state))
     = [RangeIn "a @link http://x b" 2 16]
  /\ updateHighlights_rejects (Some el) empty_state = false.
Proof. repeat split. Qed.

(** A mention at the end of a paragraph followed by another paragraph:
    [textContent] joins them with no separator, the URL token runs into
    the next paragraph, and [setEnd] throws. *)
Example updateHighlights_split :
  let el := ElementNode [ElementNode [TextNode "@link http://a"];
                         ElementNode [TextNode "Summarize"]] in
  map m_text (matchAll (textContent el)) = ["@link http://aSummarize"]
  /\ findRangeForMatch el "@link http://aSummarize" = RangeIndexSizeError
  /\ updateHighlights_rejects (Some el) empty_state = true
  /\ updateHighlights (Some el) empty_state = empty_state.
Proof. repeat split. Qed.

Example set_add_ex : set_add "b" ["a"] = ["a"; "b"] /\ set_add "a" ["a"] = ["a"].
Proof. split; reflexivity. Qed.

Definition example_data : ResponseData := mkResponseData "Example body" None None.

(** The end-to-end scenario of the spec: reconcile, press Space, inject. *)
Example end_to_end :
  let text := "check this @link https://example.com out" in
  let st1 := updateHighlights (Some (TextNode text)) empty_state in
  let '(st2, es) := processPendingLinks (fun _ _ => RValue true (Some example_data) None) st1 in
  fetch_count es = 1
  /\ paragraphs (fst (injectContext (Some text) (highlights st2)))
     = [nl ++ nl ++ "Context for https://example.com:" ++ nl ++ "Example body"].
Proof. split; reflexivity. Qed.

Example guard_reentry :
  handleSubmitAttempt (fun _ => false) enter (mkGuard true false true)
  = (mkGuard true false true, []).
Proof. reflexivity. Qed.

(* ------------------------------------------------------------------ *)
(** ** Lemmas on strings and the scanner *)

Lemma append_assoc_s : forall a b c : string, (a ++ b) ++ c = a ++ (b ++ c).
Proof. induction a; intros; simpl; [reflexivity | now rewrite IHa]. Qed.

Lemma strip_prefix_app : forall p r, strip_prefix p (p ++ r) = Some r.
Proof.
  induction p; intros; simpl; [reflexivity|].
  rewrite Ascii.eqb_refl; apply IHp.
Qed.

Lemma strip_prefix_Some : forall p s r, strip_prefix p s = Some r -> s = p ++ r.
Proof.
  induction p; intros s r H; simpl in *.
  - congruence.
  - destruct s as [|b s']; [discriminate|].
    destruct (Ascii.eqb a b) eqn:E; [|discriminate].
    apply Ascii.eqb_eq in E; subst. f_equal. now apply IHp.
Qed.

Lemma span_app : forall f s a b, span f s = (a, b) -> s = a ++ b.
Proof.
  induction s; intros x y H; simpl in H.
  - inversion H; reflexivity.
  - destruct (f a) eqn:E.
    + destruct (span f s) as [a' b'] eqn:Es. inversion H; subst.
      simpl; f_equal; now apply IHs.
    + inversion H; reflexivity.
Qed.

Lemma span_all : forall f s a b, span f s = (a, b) ->
  forall i c, String.get i a = Some c -> f c = true.
Proof.
  induction s; intros x y H i c Hc; simpl in H.
  - inversion H; subst; destruct i; discriminate.
  - destruct (f a) eqn:E.
    + destruct (span f s) as [a' b'] eqn:Es. inversion H; subst.
      destruct i; simpl in Hc; [congruence|]. eapply IHs; eauto.
    + inversion H; subst; destruct i; discriminate.
Qed.

(** Shape of a successful [URL_REGEX] attempt. *)
Lemma regex_at_shape : forall s t u, regex_at s = Some (t, u) ->
  exists ws p tok rest,
    t = "@link" ++ ws ++ p ++ tok /\ u = p ++ tok /\ s = t ++ rest
    /\ ws <> EmptyString /\ tok <> EmptyString
    /\ (p = "https://" \/ p = "http://")
    /\ (forall i c, String.get i ws = Some c -> is_space c = true).
Proof.
  intros s t u H. unfold regex_at in H.
  destruct (strip_prefix "@link" s) as [s1|] eqn:E1; [|discriminate].
  destruct (span is_space s1) as [ws s2] eqn:E2.
  assert (Hws : forall i c, String.get i ws = Some c -> is_space c = true)
    by (eapply span_all; eauto).
  apply strip_prefix_Some in E1. apply span_app in E2.
  destruct ws as [|w0 ws0]; [discriminate|].
  destruct (strip_prefix "https://" s2) as [s3|] eqn:E3.
  - destruct (span (fun c => negb (is_space c)) s3) as [tok rest] eqn:E4.
    apply strip_prefix_Some in E3. apply span_app in E4.
    destruct tok as [|k0 tok0]; [discriminate|]. inversion H; subst.
    exists (String w0 ws0), "https://", (String k0 tok0), rest.
    repeat split; try discriminate; auto.
    simpl; rewrite !append_assoc_s; reflexivity.
  - destruct (strip_prefix "http://" s2) as [s3|] eqn:E5; [|discriminate].
    destruct (span (fun c => negb (is_space c)) s3) as [tok rest] eqn:E4.
    apply strip_prefix_Some in E5. apply span_app in E4.
    destruct tok as [|k0 tok0]; [discriminate|]. inversion H; subst.
    exists (String w0 ws0), "http://", (String k0 tok0), rest.
    repeat split; try discriminate; auto.
    simpl; rewrite !append_assoc_s; reflexivity.
Qed.

Lemma substring_full : forall s m, String.length s <= m -> substring 0 m s = s.
Proof.
  induction s; intros m Hm; destruct m; simpl in *; try reflexivity; try lia.
  f_equal; apply IHs; lia.
Qed.

Lemma substring_suffix : forall s n m, String.length s <= m ->
  exists pre, s = pre ++ substring n m s.
Proof.
  induction s; intros n m Hm.
  - exists EmptyString. destruct n, m; reflexivity.
  - destruct n.
    + exists EmptyString. simpl String.append.
      symmetry. exact (substring_full (String a s) m Hm).
    + simpl in Hm. destruct (IHs n m ltac:(lia)) as [pre Hpre].
      exists (String a pre). simpl. destruct m; [lia|]. simpl. now f_equal.
Qed.

Lemma index_of_from_found : forall pre i sub s r,
  strip_prefix sub s = Some r -> exists j, index_of_from i sub (pre ++ s) = Some j.
Proof.
  induction pre; intros i sub s r H; simpl.
  - destruct s; simpl; rewrite H; eauto.
  - destruct (strip_prefix sub (String a (pre ++ s))); eauto.
Qed.

Lemma scan_from_sound : forall fuel pos s m, In m (scan_from fuel pos s) ->
  mention_shape m /\ exists pre rest, s = pre ++ m_text m ++ rest.
Proof.
  induction fuel; intros pos s m H; simpl in H; [contradiction|].
  destruct s as [|c s']; [contradiction|].
  destruct (regex_at (String c s')) as [[t u]|] eqn:E.
  - destruct H as [H|H].
    + subst m. simpl.
      destruct (regex_at_shape _ _ _ E) as (ws & p & tok & rest & Ht & Hu & Hs & Hw & Htok & Hp & Hsp).
      split.
      * exists ws, p, tok. subst. repeat split; auto.
      * exists EmptyString, rest. exact Hs.
    + destruct (IHfuel _ _ _ H) as [Hsh [pre [rest Hpr]]]. split; [exact Hsh|].
      destruct (substring_suffix (String c s') (String.length t)
                  (String.length (String c s')) (le_n _)) as [pre0 Hpre0].
      exists (pre0 ++ pre), rest. rewrite Hpre0 at 1. rewrite Hpr.
      now rewrite append_assoc_s.
  - destruct (IHfuel _ _ _ H) as [Hsh [pre [rest Hpr]]]. split; [exact Hsh|].
    exists (String c pre), rest. simpl. now f_equal.
Qed.


(** [findRangeForMatch] never returns [null] for a match of the same text. *)
Lemma findRange_matchAll : forall el m, In m (matchAll (textContent el)) ->
  findRangeForMatch el (m_text m) <> RangeNull.
Proof.
  intros el m H. destruct (scan_from_sound _ _ _ _ H) as [_ [pre [rest Hs]]].
  unfold findRangeForMatch, index_of. rewrite Hs.
  destruct (index_of_from_found pre 0 (m_text m) (m_text m ++ rest) rest
              (strip_prefix_app _ _)) as [j Hj].
  rewrite Hj. destruct (findTextNode j el 0) as [|[s off]]; [discriminate|].
  destruct (Nat.leb _ _); discriminate.
Qed.

(* ------------------------------------------------------------------ *)
(** ** Lemmas on maps and sets *)

Section MapLemmas.
Context {V : Type}.

Lemma map_get_set : forall (m : amap V) k k' v,
  map_get k (map_set k' v m) = if String.eqb k k' then Some v else map_get k m.
Proof.
  induction m as [|[k0 v0] m IH]; intros k k' v; simpl.
  - reflexivity.
  - destruct (String.eqb k' k0) eqn:E1; simpl.
    + apply String.eqb_eq in E1; subst k0.
      destruct (String.eqb k k'); reflexivity.
    + destruct (String.eqb k k0) eqn:E2; rewrite ?IH.
      * apply String.eqb_eq in E2; subst k0.
        destruct (String.eqb k k') eqn:E3; [|reflexivity].
        apply String.eqb_eq in E3; subst. rewrite String.eqb_refl in E1. discriminate.
      * reflexivity.
Qed.

Lemma map_get_delete : forall (m : amap V) k k',
  map_get k (map_delete k' m) = if String.eqb k' k then None else map_get k m.
Proof.
  unfold map_delete.
  induction m as [|[k0 v0] m IH]; intros k k'; simpl.
  - destruct (String.eqb k' k); reflexivity.
  - destruct (String.eqb k' k0) eqn:E1; simpl.
    + rewrite IH. apply String.eqb_eq in E1; subst k0.
      destruct (String.eqb k' k) eqn:E2; [reflexivity|].
      rewrite String.eqb_sym, E2. reflexivity.
    + destruct (String.eqb k k0) eqn:E2.
      * apply String.eqb_eq in E2; subst k0. rewrite E1. reflexivity.
      * apply IH.
Qed.

Lemma map_get_In : forall (m : amap V) k v, map_get k m = Some v -> In (k, v) m.
Proof.
  induction m as [|[k0 v0] m IH]; intros k v H; simpl in *; [discriminate|].
  destruct (String.eqb k k0) eqn:E.
  - apply String.eqb_eq in E; subst. inversion H; auto.
  - right; auto.
Qed.

Lemma map_get_None_In : forall (m : amap V) k v, map_get k m = None -> ~ In (k, v) m.
Proof.
  induction m as [|[k0 v0] m IH]; intros k v H Hin; simpl in *; [contradiction|].
  destruct (String.eqb k k0) eqn:E; [discriminate|].
  destruct Hin as [Hin|Hin].
  - inversion Hin; subst. rewrite String.eqb_refl in E. discriminate.
  - eapply IH; eauto.
Qed.

Lemma keys_set : forall (m : amap V) k v x,
  In x (map fst (map_set k v m)) <-> k = x \/ In x (map fst m).
Proof.
  induction m as [|[k0 v0] m IH]; intros k v x; simpl.
  - tauto.
  - destruct (String.eqb k k0) eqn:E; simpl.
    + apply String.eqb_eq in E; subst. tauto.
    + rewrite IH. tauto.
Qed.

Lemma NoDup_set : forall (m : amap V) k v,
  NoDup (map fst m) -> NoDup (map fst (map_set k v m)).
Proof.
  induction m as [|[k0 v0] m IH]; intros k v H; simpl.
  - constructor; [intros []|constructor].
  - inversion H as [|? ? Hn Hd]; subst.
    destruct (String.eqb k k0) eqn:E; simpl; constructor; auto.
    rewrite keys_set. intros [Heq|Hin]; [|contradiction].
    subst. rewrite String.eqb_refl in E; discriminate.
Qed.

Lemma NoDup_delete : forall (m : amap V) k,
  NoDup (map fst m) -> NoDup (map fst (map_delete k m)).
Proof.
  unfold map_delete.
  induction m as [|[k0 v0] m IH]; intros k H; simpl; [constructor|].
  inversion H as [|? ? Hn Hd]; subst.
  destruct (negb (String.eqb k k0)); simpl; auto.
  constructor; auto. intro Hin. apply Hn.
  apply in_map_iff in Hin. destruct Hin as [[a b] [Ha Hb]]. simpl in Ha; subst.
  apply filter_In in Hb. apply in_map_iff. exists (k0, b); tauto.
Qed.

End MapLemmas.

Lemma set_has_In : forall k s, set_has k s = true <-> In k s.
Proof.
  intros k s. unfold set_has. rewrite existsb_exists. split.
  - intros [x [Hx E]]. apply String.eqb_eq in E; subst; auto.
  - intros H. exists k. split; auto. apply String.eqb_refl.
Qed.

Lemma set_has_add : forall k x s, set_has k (set_add x s) = String.eqb k x || set_has k s.
Proof.
  intros k x s. unfold set_add.
  destruct (set_has x s) eqn:E.
  - destruct (String.eqb k x) eqn:E2; [|reflexivity].
    apply String.eqb_eq in E2; subst. rewrite E. reflexivity.
  - unfold set_has. rewrite existsb_app. simpl.
    destruct (String.eqb k x), (existsb (String.eqb k) s); reflexivity.
Qed.

Lemma In_set_add : forall u x s, In u (set_add x s) <-> x = u \/ In u s.
Proof.
  intros u x s. unfold set_add.
  destruct (set_has x s) eqn:E.
  - apply set_has_In in E. split; [tauto|]. intros [->|H]; auto.
  - rewrite in_app_iff. simpl. tauto.
Qed.

Lemma In_set_delete : forall u x s, In u (set_delete x s) <-> In u s /\ x <> u.
Proof.
  intros u x s. unfold set_delete. rewrite filter_In.
  rewrite Bool.negb_true_iff, String.eqb_neq. tauto.
Qed.

(* ------------------------------------------------------------------ *)
(** ** The two loops of [updateHighlights] *)

(** The four steps of the first loop on a match [m]. *)
Lemma add_loop_has : forall el m ms hs pl ids,
  map_has (generateId (m_text m)) hs = true ->
  add_loop el (m :: ms) hs pl ids
  = add_loop el ms hs pl (set_add (generateId (m_text m)) ids).
Proof. intros el m ms hs pl ids H. cbn [add_loop]. rewrite H. reflexivity. Qed.


Lemma add_loop_throw : forall el m ms hs pl ids,
  map_has (generateId (m_text m)) hs = false ->
  findRangeForMatch el (m_text m) = RangeIndexSizeError ->
  add_loop el (m :: ms) hs pl ids = (hs, pl, set_add (generateId (m_text m)) ids, true).
Proof. intros el m ms hs pl ids H E. cbn [add_loop]. rewrite H, E. reflexivity. Qed.

Lemma add_loop_new : forall el m ms hs pl ids,
  map_has (generateId (m_text m)) hs = false ->
  findRangeForMatch el (m_text m) <> RangeNull ->
  findRangeForMatch el (m_text m) <> RangeIndexSizeError ->
  add_loop el (m :: ms) hs pl ids
  = add_loop el ms
      (map_set (generateId (m_text m))
         (mkHighlight (generateId (m_text m)) (m_text m) (findRangeForMatch el (m_text m))
            (pending_state (m_url m))) hs)
      (set_add (m_url m) pl) (set_add (generateId (m_text m)) ids).
Proof.
  intros el m ms hs pl ids H E1 E2. cbn [add_loop]. rewrite H.
  destruct (findRangeForMatch el (m_text m)); congruence.
Qed.

Lemma range_cases : forall r,
  r = RangeNull \/ r = RangeIndexSizeError \/ (r <> RangeNull /\ r <> RangeIndexSizeError).
Proof. intros []; [left | right; right | right; right | right; left]; split || reflexivity; discriminate. Qed.

Lemma In_map_set_key : forall {V} (m : amap V) k v k' v',
  In (k', v') (map_set k v m) -> In (k', v') m \/ (k' = k /\ v' = v).
Proof.
  induction m as [|[k0 v0] m IH]; intros k v k' v' H; simpl in *.
  - destruct H as [H|[]]. inversion H; auto.
  - destruct (String.eqb k k0) eqn:E.
    + apply String.eqb_eq in E; subst k0.
      destruct H as [H|H]; [inversion H; auto|auto].
    + destruct H as [H|H]; [auto|]. destruct (IH _ _ _ _ H); auto.
Qed.

(** What the first loop does, whether or not it throws: it keeps every
    highlight, adds highlights only for ids of the matches, all [pending],
    and adds only URLs of the matches, each with a highlight. *)
Lemma add_loop_grow : forall el ms hs pl ids,
  let '(hs', pl', _, _) := add_loop el ms hs pl ids in
  (forall k h, map_get k hs = Some h -> map_get k hs' = Some h)
  /\ (forall k h, map_get k hs' = Some h -> map_get k hs = Some h \/ ls_status (h_state h) = pending)
  /\ (forall k h, In (k, h) hs' -> In (k, h) hs \/ exists m, In m ms /\ generateId (m_text m) = k)
  /\ (NoDup (map fst hs) -> NoDup (map fst hs'))
  /\ (forall u, In u pl' -> In u pl \/
        exists m k h, In m ms /\ m_url m = u /\ map_get k hs' = Some h /\ ls_url (h_state h) = u).
Proof.
  intros el ms. induction ms as [|m ms IH]; intros hs pl ids; cbn [add_loop].
  - split; [|split; [|split; [|split]]]; auto.
  - set (id := generateId (m_text m)).
    destruct (map_has id hs) eqn:Ehas.
    + specialize (IH hs pl (set_add id ids)).
      destruct (add_loop el ms hs pl (set_add id ids)) as [[[hs' pl'] ids'] t].
      destruct IH as (I1 & I2 & I3 & I4 & I5).
      split; [exact I1|split; [exact I2|split; [|split; [exact I4|]]]].
      * intros k h H. destruct (I3 k h H) as [H'|(m0 & Hm0 & E)]; [auto|right; exists m0; simpl; auto].
      * intros u H. destruct (I5 u H) as [H'|(m0 & k & h & Hm0 & H1)]; [auto|right].
        exists m0, k, h. simpl. auto.
    + destruct (range_cases (findRangeForMatch el (m_text m))) as [Er|[Er|[Nn Ni]]].
      * rewrite Er. specialize (IH hs pl (set_add id ids)).
        destruct (add_loop el ms hs pl (set_add id ids)) as [[[hs' pl'] ids'] t].
        destruct IH as (I1 & I2 & I3 & I4 & I5).
        split; [exact I1|split; [exact I2|split; [|split; [exact I4|]]]].
        -- intros k h H. destruct (I3 k h H) as [H'|(m0 & Hm0 & E)]; [auto|right; exists m0; simpl; auto].
        -- intros u H. destruct (I5 u H) as [H'|(m0 & k & h & Hm0 & H1)]; [auto|right].
           exists m0, k, h. simpl. auto.
      * rewrite Er. split; [|split; [|split; [|split]]]; auto.
      * assert (E : add_loop el (m :: ms) hs pl ids
                    = add_loop el ms
                        (map_set id (mkHighlight id (m_text m) (findRangeForMatch el (m_text m))
                                       (pending_state (m_url m))) hs)
                        (set_add (m_url m) pl) (set_add id ids))
          by (apply add_loop_new; assumption).
        cbn [add_loop] in E. fold id in E. rewrite Ehas in E. rewrite E. clear E.
        set (H0 := mkHighlight id (m_text m) (findRangeForMatch el (m_text m)) (pending_state (m_url m))).
        specialize (IH (map_set id H0 hs) (set_add (m_url m) pl) (set_add id ids)).
        destruct (add_loop el ms (map_set id H0 hs) (set_add (m_url m) pl) (set_add id ids))
          as [[[hs' pl'] ids'] t].
        destruct IH as (I1 & I2 & I3 & I4 & I5).
        assert (Hid : map_get id hs = None)
          by (unfold map_has in Ehas; destruct (map_get id hs); [discriminate|reflexivity]).
        assert (Hg : map_get id hs' = Some H0) by (apply I1; rewrite map_get_set, String.eqb_refl; reflexivity).
        split; [|split; [|split; [|split]]].
        -- intros k h H. apply I1. rewrite map_get_set.
           destruct (String.eqb k id) eqn:Ek; [|exact H].
           apply String.eqb_eq in Ek; subst k. congruence.
        -- intros k h H. destruct (I2 k h H) as [H'|H']; [|auto].
           rewrite map_get_set in H'. destruct (String.eqb k id); [|auto].
           inversion H'; subst h. right. reflexivity.
        -- intros k h H. destruct (I3 k h H) as [H'|(m0 & Hm0 & E)].
           ++ destruct (In_map_set_key _ _ _ _ _ H') as [H''|[-> _]]; [auto|].
              right. exists m. simpl. auto.
           ++ right. exists m0. simpl. auto.
        -- intros Hnd. apply I4, NoDup_set, Hnd.
        -- intros u H. destruct (I5 u H) as [H'|(m0 & k & h & Hm0 & H1)].
           ++ apply In_set_add in H'. destruct H' as [<-|H']; [|auto].
              right. exists m, id, H0. simpl. auto.
           ++ right. exists m0, k, h. simpl. auto.
Qed.

Lemma new_in_eq : forall el ms k m,
  find (fun m0 => String.eqb (generateId (m_text m0)) k) ms = Some m ->
  findRangeForMatch el (m_text m) <> RangeNull ->
  findRangeForMatch el (m_text m) <> RangeIndexSizeError ->
  new_in el ms k = Some (mkHighlight k (m_text m) (findRangeForMatch el (m_text m))
                                     (pending_state (m_url m))).
Proof.
  intros el ms k m Hf E1 E2. unfold new_in. rewrite Hf.
  destruct (findRangeForMatch el (m_text m)); congruence.
Qed.

(** The first loop when it does not throw, on matches whose range is
    never [null]: it creates, for each new id, the highlight of the first
    match with that id. *)
Lemma add_loop_spec : forall el ms hs pl ids,
  (forall m, In m ms -> findRangeForMatch el (m_text m) <> RangeNull) ->
  let '(hs', pl', ids', thrown) := add_loop el ms hs pl ids in
  thrown = false ->
  (forall k, map_get k hs' =
             match map_get k hs with Some h => Some h | None => new_in el ms k end)
  /\ (forall k, set_has k ids' =
                set_has k ids || existsb (fun m => String.eqb (generateId (m_text m)) k) ms)
  /\ (forall u, In u pl' <-> In u pl \/
        exists k h, map_get k hs = None /\ new_in el ms k = Some h /\ ls_url (h_state h) = u)
  /\ (NoDup (map fst hs) -> NoDup (map fst hs'))
  /\ (forall k, map_get k hs = None ->
        existsb (fun m => String.eqb (generateId (m_text m)) k) ms = true ->
        new_in el ms k <> None).
Proof.
  intros el ms. induction ms as [|m ms IH]; intros hs pl ids Hr.
  - cbn [add_loop]. intros _. split; [|split; [|split; [|split]]].
    + intros k. destruct (map_get k hs); reflexivity.
    + intros k. now rewrite orb_false_r.
    + intros u. split; [tauto|]. intros [H|(k & h & _ & H & _)]; [exact H|discriminate].
    + tauto.
    + intros k _ H. discriminate H.
  - assert (Hr' : forall m0, In m0 ms -> findRangeForMatch el (m_text m0) <> RangeNull)
      by (intros; apply Hr; simpl; auto).
    set (id := generateId (m_text m)).
    assert (Hnew : forall k, k <> id -> new_in el (m :: ms) k = new_in el ms k).
    { intros k Hk. unfold new_in. simpl.
      destruct (String.eqb (generateId (m_text m)) k) eqn:E; [|reflexivity].
      apply String.eqb_eq in E. fold id in E. congruence. }
    assert (Hex : forall k, k <> id ->
      existsb (fun m0 => String.eqb (generateId (m_text m0)) k) (m :: ms)
      = existsb (fun m0 => String.eqb (generateId (m_text m0)) k) ms).
    { intros k Hk. simpl. fold id.
      replace (String.eqb id k) with false; [reflexivity|].
      symmetry. apply String.eqb_neq. auto. }
    assert (Hids : forall k ids0,
      set_has k (set_add id ids0)
        || existsb (fun m0 => String.eqb (generateId (m_text m0)) k) ms
      = set_has k ids0
        || existsb (fun m0 => String.eqb (generateId (m_text m0)) k) (m :: ms)).
    { intros k ids0. rewrite set_has_add. simpl. fold id. rewrite (String.eqb_sym k id).
      destruct (String.eqb id k), (set_has k ids0),
        (existsb (fun m0 => String.eqb (generateId (m_text m0)) k) ms); reflexivity. }
    destruct (map_has id hs) eqn:Ehas.
    + rewrite add_loop_has by exact Ehas. fold id.
      specialize (IH hs pl (set_add id ids) Hr').
      destruct (add_loop el ms hs pl (set_add id ids)) as [[[hs' pl'] ids'] t].
      intros Ht. destruct (IH Ht) as (IH1 & IH2 & IH3 & IH4 & IH5).
      assert (Hid : exists h0, map_get id hs = Some h0)
        by (unfold map_has in Ehas; destruct (map_get id hs); [eauto|discriminate]).
      destruct Hid as [h0 Hh0].
      split; [|split; [|split; [|split]]]; auto.
      * intros k. rewrite IH1. destruct (map_get k hs) eqn:Ek; [reflexivity|].
        rewrite Hnew; [reflexivity|]. intros ->; congruence.
      * intros k. rewrite IH2. apply Hids.
      * intros u. rewrite IH3. split; intros [H|(k & h & H1 & H2 & H3)]; auto; right;
          exists k, h; (split; [exact H1|split; [|exact H3]]);
          (assert (k <> id) by (intros ->; congruence));
          [rewrite Hnew|rewrite <- Hnew]; auto.
      * intros k Hk Hx. assert (k <> id) by (intros ->; congruence).
        rewrite Hnew by auto. rewrite Hex in Hx by auto. auto.
    + destruct (range_cases (findRangeForMatch el (m_text m))) as [Er|[Er|[Nn Ni]]].
      * exfalso. exact (Hr m (or_introl eq_refl) Er).
      * rewrite add_loop_throw by assumption. intros Ht; discriminate Ht.
      * rewrite add_loop_new by assumption. fold id.
        set (H := mkHighlight id (m_text m) (findRangeForMatch el (m_text m)) (pending_state (m_url m))).
        assert (Hid : map_get id hs = None)
          by (unfold map_has in Ehas; destruct (map_get id hs); [discriminate|reflexivity]).
        assert (HnewId : new_in el (m :: ms) id = Some H).
        { apply new_in_eq; [|assumption|assumption]. simpl. fold id. rewrite String.eqb_refl. reflexivity. }
        specialize (IH (map_set id H hs) (set_add (m_url m) pl) (set_add id ids) Hr').
        destruct (add_loop el ms (map_set id H hs) (set_add (m_url m) pl) (set_add id ids))
          as [[[hs' pl'] ids'] t].
        intros Ht. destruct (IH Ht) as (IH1 & IH2 & IH3 & IH4 & IH5).
        split; [|split; [|split; [|split]]].
        -- intros k. rewrite IH1, map_get_set.
           destruct (String.eqb k id) eqn:Ek.
           ++ apply String.eqb_eq in Ek; subst k. rewrite Hid, HnewId. reflexivity.
           ++ apply String.eqb_neq in Ek. rewrite Hnew by exact Ek.
              destruct (map_get k hs); reflexivity.
        -- intros k. rewrite IH2. apply Hids.
        -- intros u. rewrite IH3, In_set_add. split.
           ++ intros [[Hu|Hu]|(k & h & H1 & H2 & H3)].
              ** right. exists id, H. subst u. auto.
              ** left; exact Hu.
              ** right. rewrite map_get_set in H1.
                 destruct (String.eqb k id) eqn:Ek; [discriminate|].
                 apply String.eqb_neq in Ek. exists k, h. rewrite Hnew by exact Ek. auto.
           ++ intros [Hu|(k & h & H1 & H2 & H3)]; [left; right; exact Hu|].
              destruct (String.eqb k id) eqn:Ek.
              ** apply String.eqb_eq in Ek; subst k. rewrite HnewId in H2.
                 inversion H2; subst h. left; left. exact H3.
              ** apply String.eqb_neq in Ek. right. exists k, h.
                 rewrite map_get_set.
                 replace (String.eqb k id) with false by (symmetry; now apply String.eqb_neq).
                 rewrite Hnew in H2 by exact Ek. auto.
        -- intros Hnd. apply IH4. apply NoDup_set. exact Hnd.
        -- intros k Hk Hx. destruct (String.eqb k id) eqn:Ek.
           ++ apply String.eqb_eq in Ek; subst k. rewrite HnewId. discriminate.
           ++ apply String.eqb_neq in Ek. rewrite Hnew by exact Ek. rewrite Hex in Hx by exact Ek.
              apply IH5; [|exact Hx]. rewrite map_get_set.
              replace (String.eqb k id) with false by (symmetry; now apply String.eqb_neq). exact Hk.
Qed.


Lemma del_fold_spec : forall ids L hs pl,
  let '(hs', pl') := fold_left (del_step ids) L (hs, pl) in
  (forall k, map_get k hs' =
     if existsb (fun e => String.eqb (fst e) k && negb (set_has (fst e) ids)) L
     then None else map_get k hs)
  /\ (forall u, In u pl' <-> In u pl /\
        ~ exists e, In e L /\ set_has (fst e) ids = false /\ ls_url (h_state (snd e)) = u)
  /\ (NoDup (map fst hs) -> NoDup (map fst hs')).
Proof.
  intros ids L. induction L as [|[id h] L IH]; intros hs pl; simpl.
  - split; [|split]; auto.
    intros u. split; [intros H; split; [exact H|]; intros (e & [] & _)|tauto].
  - destruct (set_has id ids) eqn:Eid; simpl.
    + specialize (IH hs pl).
      destruct (fold_left (del_step ids) L (hs, pl)) as [hs' pl'].
      destruct IH as (IH1 & IH2 & IH3). split; [|split]; auto.
      * intros k. rewrite IH1, andb_false_r. reflexivity.
      * intros u. rewrite IH2. split.
        -- intros [Hu Hn]; split; [exact Hu|]. intros (e & [He|He] & H1 & H2).
           ++ subst e. simpl in H1. congruence.
           ++ apply Hn; eauto.
        -- intros [Hu Hn]; split; [exact Hu|]. intros (e & He & H1 & H2).
           apply Hn; eauto.
    + specialize (IH (map_delete id hs) (set_delete (ls_url (h_state h)) pl)).
      destruct (fold_left (del_step ids) L (map_delete id hs, set_delete (ls_url (h_state h)) pl))
        as [hs' pl'].
      destruct IH as (IH1 & IH2 & IH3). split; [|split].
      * intros k. rewrite IH1, map_get_delete, andb_true_r.
        destruct (String.eqb id k), (existsb _ L); reflexivity.
      * intros u. rewrite IH2, In_set_delete. split.
        -- intros [[Hu Hne] Hn]; split; [exact Hu|]. intros (e & [He|He] & H1 & H2).
           ++ subst e. simpl in H2. congruence.
           ++ apply Hn; eauto.
        -- intros [Hu Hn]; split; [split; [exact Hu|]|].
           ++ intros Heq. apply Hn. exists (id, h). simpl. auto.
           ++ intros (e & He & H1 & H2). apply Hn; eauto.
      * intros Hnd. apply IH3. apply NoDup_delete. exact Hnd.
Qed.



Lemma set_has_mention_ids : forall text k,
  set_has k (mention_ids text)
  = existsb (fun m => String.eqb (generateId (m_text m)) k) (matchAll text).
Proof.
  intros text k. unfold mention_ids, set_has.
  induction (matchAll text) as [|m ms IH]; simpl; [reflexivity|].
  now rewrite IH, String.eqb_sym.
Qed.


Lemma In_mention_ids : forall text k,
  In k (mention_ids text) <-> exists m, In m (matchAll text) /\ generateId (m_text m) = k.
Proof.
  intros text k. unfold mention_ids. rewrite in_map_iff. firstorder.
Qed.


Lemma new_in_Some : forall el ms k h, new_in el ms k = Some h ->
  exists m r, In m ms /\ generateId (m_text m) = k
    /\ h = mkHighlight k (m_text m) r (pending_state (m_url m)).
Proof.
  intros el ms k h H. unfold new_in in H.
  destruct (find _ ms) as [m|] eqn:Ef; [|discriminate].
  apply find_some in Ef. destruct Ef as [Hin E]. apply String.eqb_eq in E.
  destruct (findRangeForMatch el (m_text m)); try discriminate; inversion H; subst; eauto.
Qed.

(** The two loops of [updateHighlights], combined, when it does not
    throw. [hs1] is the map after the first loop. *)
Lemma updateHighlights_spec : forall el st,
  updateHighlights_rejects (Some el) st = false ->
  let text := textContent el in
  let st' := updateHighlights (Some el) st in
  exists hs1,
    (forall k, map_get k hs1 =
       match map_get k (highlights st) with
       | Some h => Some h | None => new_in el (matchAll text) k end)
    /\ (forall k, map_get k (highlights st') =
         if set_has k (mention_ids text) then map_get k hs1 else None)
    /\ (forall u, In u (pendingLinks st') <->
         (In u (pendingLinks st) \/ exists k h, map_get k (highlights st) = None
             /\ new_in el (matchAll text) k = Some h /\ ls_url (h_state h) = u)
         /\ ~ exists e, In e hs1 /\ set_has (fst e) (mention_ids text) = false
                        /\ ls_url (h_state (snd e)) = u)
    /\ (NoDup (map fst (highlights st)) -> NoDup (map fst hs1))
    /\ (NoDup (map fst (highlights st)) -> NoDup (map fst (highlights st')))
    /\ (forall k, map_get k (highlights st) = None -> In k (mention_ids text) ->
          new_in el (matchAll text) k <> None)
    /\ (forall k h, In (k, h) hs1 -> In (k, h) (highlights st) \/ In k (mention_ids text))
    /\ contextCache st' = contextCache st.
Proof.
  intros el st Hrej. cbv zeta.
  unfold updateHighlights_rejects, updateHighlights, updateHighlights_run in *. cbv zeta in *.
  pose proof (add_loop_spec el (matchAll (textContent el)) (highlights st) (pendingLinks st) []
                (findRange_matchAll el)) as HA.
  pose proof (add_loop_grow el (matchAll (textContent el)) (highlights st) (pendingLinks st) [])
    as HG.
  destruct (add_loop el (matchAll (textContent el)) (highlights st) (pendingLinks st) [])
    as [[[hs1 pl1] ids] t].
  destruct t; [discriminate Hrej|].
  destruct (HA eq_refl) as (A1 & A2 & A3 & A4 & A5). destruct HG as (_ & _ & G3 & _).
  assert (Hids : forall k, set_has k ids = set_has k (mention_ids (textContent el)))
    by (intros k; rewrite A2, set_has_mention_ids; reflexivity).
  pose proof (del_fold_spec ids hs1 hs1 pl1) as HD.
  destruct (fold_left (del_step ids) hs1 (hs1, pl1)) as [hs2 pl2] eqn:ED.
  destruct HD as (D1 & D2 & D3). simpl.
  exists hs1. split; [exact A1|split; [|split; [|split; [|split; [|split; [|split]]]]]].
  - intros k. rewrite D1, <- Hids.
    destruct (set_has k ids) eqn:Ek.
    + replace (existsb _ hs1) with false; [reflexivity|].
      symmetry. apply Bool.not_true_iff_false. rewrite existsb_exists.
      intros ([k' v] & Hin & E). simpl in E.
      apply andb_true_iff in E. destruct E as [E1 E2].
      apply String.eqb_eq in E1; subst k'. rewrite Ek in E2. discriminate.
    + destruct (existsb _ hs1) eqn:Ex; [reflexivity|].
      destruct (map_get k hs1) as [v|] eqn:Eg; [|reflexivity].
      apply map_get_In in Eg. exfalso. apply Bool.not_true_iff_false in Ex. apply Ex.
      apply existsb_exists. exists (k, v). simpl. rewrite String.eqb_refl, Ek. auto.
  - intros u. rewrite D2, A3. split; intros [H1 H2]; split; auto;
      intros (e & He & E1 & E2); apply H2; exists e; rewrite ?Hids in *; auto.
  - exact A4.
  - intros Hnd. apply D3. apply A4. exact Hnd.
  - intros k Hk Hin. apply A5; [exact Hk|].
    rewrite <- set_has_mention_ids. apply set_has_In. exact Hin.
  - intros k h Hin. destruct (G3 k h Hin) as [H|(m & Hm & E)]; [auto|].
    right. apply In_mention_ids. eauto.
  - reflexivity.
Qed.


(** When the pass throws, every highlight stays, and each pending URL
    still has a highlight. *)
Lemma updateHighlights_thrown : forall el st,
  updateHighlights_rejects (Some el) st = true ->
  let st' := updateHighlights (Some el) st in
  (forall k h, map_get k (highlights st) = Some h -> map_get k (highlights st') = Some h)
  /\ (NoDup (map fst (highlights st)) -> NoDup (map fst (highlights st')))
  /\ (forall u, In u (pendingLinks st') -> In u (pendingLinks st) \/
        exists k h, map_get k (highlights st') = Some h /\ ls_url (h_state h) = u).
Proof.
  intros el st Hrej. cbv zeta.
  unfold updateHighlights_rejects, updateHighlights, updateHighlights_run in *. cbv zeta in *.
  pose proof (add_loop_grow el (matchAll (textContent el)) (highlights st) (pendingLinks st) [])
    as HG.
  destruct (add_loop el (matchAll (textContent el)) (highlights st) (pendingLinks st) [])
    as [[[hs1 pl1] ids] t].
  destruct t; [|destruct (fold_left _ _ _); discriminate Hrej].
  destruct HG as (G1 & _ & _ & G4 & G5). cbn [fst highlights pendingLinks].
  split; [exact G1|split; [exact G4|]].
  intros u H. destruct (G5 u H) as [H'|(m & k & h & _ & _ & H1 & H2)]; [auto|eauto].
Qed.



(* ------------------------------------------------------------------ *)
(** ** Claims *)




(* ------------------------------------------------------------------ *)
(** ** [processLink] *)

Lemma updateHighlightState_get : forall id s hs h,
  map_get id hs = Some h ->
  map_get id (updateHighlightState id s hs) = Some (mkHighlight (h_id h) (h_text h) (h_range h) s).
Proof.
  intros id s hs h H. unfold updateHighlightState. rewrite H, map_get_set, String.eqb_refl.
  reflexivity.
Qed.

(** C2. After three failed attempts on a cache miss, [processLink] has
    called the collaborator exactly three times, waited 1000 then 2000
    time units in between, written an [error] state to the highlight and
    stored that same state in the durable cache under the URL. *)
Theorem C2_three_failures : forall fetch id url cache hs,
  map_get url cache = None ->
  resp_data (fetch 0) = None -> resp_data (fetch 1) = None -> resp_data (fetch 2) = None ->
  let errorState := error_state url (failure_message (fetch 2)) in
  let '(hs', c', es) := processLink fetch id url cache hs in
  es = [EFetch url; EDelay 1000; EFetch url; EDelay 2000; EFetch url;
        EHighlight id errorState; ESetCache (map_set url errorState cache)]
  /\ fetch_count es = 3
  /\ delays es = [1000; 2000]
  /\ fold_left Nat.add (delays es) 0 >= 3000
  /\ ls_status errorState = error
  /\ c' = map_set url errorState cache
  /\ map_get url c' = Some errorState
  /\ hs' = updateHighlightState id errorState hs
  /\ (forall h, map_get id hs = Some h ->
        map_get id hs' = Some (mkHighlight (h_id h) (h_text h) (h_range h) errorState)).
Proof.
  intros fetch id url cache hs Hc H0 H1 H2. cbv zeta.
  unfold processLink. rewrite Hc. simpl. rewrite H0. simpl. rewrite H1. simpl. rewrite H2.
  simpl. repeat split; try reflexivity; try lia.
  - rewrite map_get_set, String.eqb_refl. reflexivity.
  - intros h Hh. apply updateHighlightState_get. exact Hh.
Qed.

(** Witness for [C2_three_failures]: three rejected calls. *)
Lemma C2_three_failures_witness :
  let fetch := fun _ : nat => RThrow "network down" in
  let '(_, c', es) := processLink fetch "_link_http___a" "http://a" [] [] in
  fetch_count es = 3 /\ map_get "http://a" c' = Some (error_state "http://a" "network down").
Proof.
  pose proof (C2_three_failures (fun _ : nat => RThrow "network down") "_link_http___a"
                "http://a" [] [] eq_refl eq_refl eq_refl eq_refl) as H.
  cbv zeta in *. destruct (processLink _ _ _ _ _) as [[hs' c'] es].
  destruct H as (_ & Hn & _ & _ & _ & _ & Hg & _). split; assumption.
Defined.

(** C3. On a durable-cache hit, [processLink] copies the cached state onto
    the highlight and returns: no call to the collaborator, no delay, no
    cache write. A highlight present for that id (for instance a brand-new
    one) ends with exactly the cached state, e.g. [done]. *)
Theorem C3_cache_hit : forall fetch id url cache hs cached,
  map_get url cache = Some cached ->
  let '(hs', c', es) := processLink fetch id url cache hs in
  es = [EHighlight id cached]
  /\ fetch_count es = 0
  /\ delays es = []
  /\ c' = cache
  /\ hs' = updateHighlightState id cached hs
  /\ (forall h, map_get id hs = Some h ->
        exists h', map_get id hs' = Some h' /\ h_state h' = cached).
Proof.
  intros fetch id url cache hs cached Hc. unfold processLink. rewrite Hc.
  repeat split; try reflexivity.
  intros h Hh. eexists. split; [apply updateHighlightState_get; exact Hh|reflexivity].
Qed.

(** Witness for [C3_cache_hit]: a fresh pending highlight, URL cached as [done]. *)
Lemma C3_cache_hit_witness :
  let hs := [("_link_http___a", mkHighlight "_link_http___a" "@link http://a" (RangeIn "@link http://a" 0 14)
                                   (pending_state "http://a"))] in
  let '(hs', _, es) := processLink (fun _ => RUndefined) "_link_http___a" "http://a"
                         [("http://a", example_done)] hs in
  fetch_count es = 0
  /\ option_map (fun h => ls_status (h_state h)) (map_get "_link_http___a" hs') = Some done.
Proof.
  pose proof (C3_cache_hit (fun _ => RUndefined) "_link_http___a" "http://a"
     [("http://a", example_done)]
     [("_link_http___a", mkHighlight "_link_http___a" "@link http://a" (RangeIn "@link http://a" 0 14) (pending_state "http://a"))]
     example_done eq_refl) as H.
  cbv zeta. destruct (processLink _ _ _ _ _) as [[hs' c'] es].
  destruct H as (_ & Hn & _ & _ & _ & Hh).
  destruct (Hh _ eq_refl) as (h' & Eh & Es). split; [exact Hn|].
  rewrite Eh. simpl. rewrite Es. reflexivity.
Defined.

(** C7 (the defect). The background script reports a failed scrape as
    [{success: false, error: message}]. [processLink] builds the error from
    [response.data?.metadata?.error], which such a response does not have,
    so three such failures store ["Unknown error"], not the collaborator's
    message. *)
Lemma C7_collaborator_message_lost :
  let r := RValue false None (Some "Firecrawl API key not found") in
  let '(_, c', _) := processLink (fun _ => r) "_link_http___a" "http://a" [] [] in
  map_get "http://a" c' = Some (error_state "http://a" "Unknown error")
  /\ option_map ls_error (map_get "http://a" c') <> Some (Some "Firecrawl API key not found").
Proof.
  vm_compute. split; [reflexivity|]. intros H. inversion H.
Qed.

Lemma In_map_set : forall {V} (m : amap V) k v k' v',
  In (k', v') (map_set k v m) -> In (k', v') m \/ v' = v.
Proof.
  induction m as [|[k0 v0] m IH]; intros k v k' v' H; simpl in *.
  - destruct H as [H|[]]. inversion H; auto.
  - destruct (String.eqb k k0).
    + destruct H as [H|H]; [inversion H; auto|auto].
    + destruct H as [H|H]; [auto|]. destruct (IH _ _ _ _ H); auto.
Qed.

Lemma all_terminal_set : forall c u l,
  all_terminal c -> terminal l = true -> all_terminal (map_set u l c).
Proof.
  intros c u l Hc Hl u' l' H. destruct (In_map_set _ _ _ _ _ H) as [H' | ->]; eauto.
Qed.

Ltac attempts fetch :=
  repeat match goal with
         | |- context [resp_data (fetch ?k)] => destruct (resp_data (fetch k)); simpl
         end.

(** Every cache write of [processLink] is the cache it read with the URL's
    entry set to a terminal state for that URL; the id plays no part. *)
Lemma processLink_cache : forall fetch id url cache hs,
  let '(_, c', es) := processLink fetch id url cache hs in
  (c' = cache /\ cache_writes es = [] /\ map_get url cache <> None)
  \/ (exists l, terminal l = true /\ ls_url l = url /\ c' = map_set url l cache
                /\ cache_writes es = [map_set url l cache]).
Proof.
  intros fetch id url cache hs. unfold processLink.
  destruct (map_get url cache) eqn:Ec.
  - simpl. left. repeat split; congruence.
  - simpl. attempts fetch; right; eexists; repeat split; reflexivity.
Qed.

Lemma processLink_id_irrelevant : forall fetch id id2 url cache hs hs2,
  let '(_, c1, es1) := processLink fetch id url cache hs in
  let '(_, c2, es2) := processLink fetch id2 url cache hs2 in
  c1 = c2 /\ cache_writes es1 = cache_writes es2.
Proof.
  intros. unfold processLink. destruct (map_get url cache).
  - split; reflexivity.
  - simpl. attempts fetch; split; reflexivity.
Qed.

Lemma run_jobs_terminal : forall fetch cache jobs hs durable es0,
  all_terminal cache -> all_terminal durable ->
  let '(_, c', es) :=
    fold_left
      (fun '(hs, durable, es) '(id, url) =>
         let '(hs', _, es') := processLink (fetch url) id url cache hs in
         (hs', last (cache_writes es') durable, app es es'))
      jobs (hs, durable, es0) in
  all_terminal c' /\ (forall c, In c (cache_writes es) -> In c (cache_writes es0) \/ all_terminal c).
Proof.
  intros fetch cache jobs hs durable es0 Hc.
  revert hs durable es0.
  induction jobs as [|[id url] jobs IH]; intros hs durable es0 Hd; simpl.
  - split; auto.
  - pose proof (processLink_cache (fetch url) id url cache hs) as HP.
    destruct (processLink (fetch url) id url cache hs) as [[hs' c'] es'].
    assert (Hw : forall c, In c (cache_writes es') -> all_terminal c).
    { intros c Hin. destruct HP as [(_ & Hw & _)|(l & Hl & _ & _ & Hw)];
        rewrite Hw in Hin; [contradiction|].
      destruct Hin as [<-|[]]. apply all_terminal_set; auto. }
    assert (Hd' : all_terminal (last (cache_writes es') durable)).
    { destruct HP as [(_ & Hw' & _)|(l & Hl & _ & _ & Hw')]; rewrite Hw'; [exact Hd|].
      apply all_terminal_set; auto. }
    specialize (IH hs' (last (cache_writes es') durable) (app es0 es') Hd').
    destruct (fold_left _ jobs (hs', last (cache_writes es') durable, app es0 es'))
      as [[hs'' c''] es''].
    destruct IH as [IH1 IH2]. split; [exact IH1|].
    intros c Hin. destruct (IH2 c Hin) as [H|H]; [|auto].
    unfold cache_writes in H. rewrite flat_map_app, in_app_iff in H.
    destruct H as [H|H]; [auto|right; apply Hw; exact H].
Qed.

(** C9. The durable cache only ever receives terminal states, keyed by
    URL: each write of [processLink] is the cache it read with the URL's
    entry set to a [done] or [error] state of that URL, whatever the
    highlight id, so highlights sharing a URL share the entry; and a whole
    [processPendingLinks] pass keeps a cache of terminal states terminal. *)
Theorem C9_cache_terminal_by_url :
  (forall fetch id url cache hs,
     all_terminal cache ->
     let '(_, c', es) := processLink fetch id url cache hs in
     all_terminal c'
     /\ (forall c, In c (cache_writes es) ->
           all_terminal c
           /\ exists l, c = map_set url l cache /\ terminal l = true /\ ls_url l = url)
     /\ (forall id2 hs2,
           let '(_, c2, es2) := processLink fetch id2 url cache hs2 in
           c2 = c' /\ cache_writes es2 = cache_writes es))
  /\ (forall fetch st,
        all_terminal (contextCache st) ->
        let '(st', es) := processPendingLinks fetch st in
        all_terminal (contextCache st')
        /\ forall c, In c (cache_writes es) -> all_terminal c).
Proof.
  split.
  - intros fetch id url cache hs Hc.
    pose proof (processLink_cache fetch id url cache hs) as HP.
    pose proof (fun id2 hs2 => processLink_id_irrelevant fetch id2 id url cache hs2 hs) as HI.
    destruct (processLink fetch id url cache hs) as [[hs' c'] es].
    split; [|split].
    + destruct HP as [(-> & _)|(l & Hl & _ & -> & _)]; auto. apply all_terminal_set; auto.
    + intros c Hin. destruct HP as [(_ & Hw & _)|(l & Hl & Hu & _ & Hw)];
        rewrite Hw in Hin; simpl in Hin; [contradiction|].
      destruct Hin as [<-|[]].
      split; [apply all_terminal_set; auto|]. eauto.
    + intros id2 hs2. specialize (HI id2 hs2).
      destruct (processLink fetch id2 url cache hs2) as [[hs2' c2] es2]. tauto.
  - intros fetch st Hc. unfold processPendingLinks.
    destruct (dispatch (highlights st) (pendingLinks st)) as [hs1 jobs].
    unfold run_jobs.
    pose proof (run_jobs_terminal fetch (contextCache st) jobs hs1 (contextCache st) [] Hc Hc)
      as HR.
    destruct (fold_left _ jobs (hs1, contextCache st, [])) as [[hs2 c2] es].
    destruct HR as [HR1 HR2]. split; [exact HR1|].
    intros c Hin. destruct (HR2 c Hin) as [[]|H]; exact H.
Qed.

(** Witness for [C9_cache_terminal_by_url]. *)
Lemma C9_cache_terminal_by_url_witness :
  all_terminal []
  /\ (let '(_, c', _) := processLink (fun _ => RThrow "x") "_link_http___a" "http://a" [] [] in
      all_terminal c').
Proof.
  assert (H0 : all_terminal []) by (intros u l []).
  split; [exact H0|].
  pose proof (proj1 C9_cache_terminal_by_url (fun _ => RThrow "x") "_link_http___a"
                "http://a" [] [] H0) as H.
  destruct (processLink _ _ _ _ _) as [[hs' c'] es]. exact (proj1 H).
Defined.

(* ------------------------------------------------------------------ *)
(** ** Submission guard *)

Lemma apply_step_processing : forall s g, isProcessing (apply_step s g) = isProcessing g.
Proof. intros [] g; reflexivity. Qed.

Lemma fold_apply_processing : forall ss g,
  isProcessing (fold_left (fun g s => apply_step s g) ss g) = isProcessing g.
Proof.
  induction ss as [|s ss IH]; intros g; simpl; [reflexivity|].
  rewrite IH. apply apply_step_processing.
Qed.

Lemma run_body_caught : forall faults ss g,
  (exists s, In s ss /\ faults s = true) ->
  snd (run_body faults ss g) = true.
Proof.
  intros faults ss. induction ss as [|s ss IH]; intros g (s0 & Hin & Hf); simpl.
  - contradiction.
  - destruct (faults s) eqn:E; [reflexivity|].
    destruct Hin as [->|Hin]; [congruence|].
    specialize (IH (apply_step s g) (ex_intro _ s0 (conj Hin Hf))).
    destruct (run_body faults ss (apply_step s g)) as [[g' es] f]. exact IH.
Qed.

(** C4. The submission guard has two states. A send gesture intercepted
    while [isProcessing] (bypass flag unset) is dropped with no effect: no
    loading indicator, no [processPendingLinks], no injection, no native
    send. Every point inside the [try] block is [Processing]. Whatever step
    faults, or if none does, the attempt ends [Idle] with the bypass flag
    cleared and the loading indicator hidden; a fault shows the error. *)
Theorem C4_submission_guard :
  (forall faults t g,
     isProcessing g = true -> shouldBypassInterception g = false ->
     on_send_gesture faults t g = Intercepted g [])
  /\ (forall t g k, isProcessing (guard_after k t g) = true)
  /\ (forall faults t g,
        isProcessing g = false ->
        let '(g', es) := handleSubmitAttempt faults t g in
        g' = mkGuard false false false
        /\ last es GShowError = GHideLoading
        /\ ((exists s, In s (body t) /\ faults s = true) -> In GShowError es)).
Proof.
  split; [|split].
  - intros faults t g Hp Hb. unfold on_send_gesture, handleSubmitAttempt.
    rewrite Hb, Hp. reflexivity.
  - intros t g k. unfold guard_after. rewrite fold_apply_processing. reflexivity.
  - intros faults t g Hp. unfold handleSubmitAttempt. rewrite Hp.
    pose proof (run_body_caught faults (body t)
                  (mkGuard true (shouldBypassInterception g) (loadingVisible g))) as Hc.
    destruct (run_body faults (body t) _) as [[g1 es] caught].
    simpl in Hc. split; [reflexivity|split].
    + rewrite app_assoc. apply last_last.
    + intros Hf. rewrite (Hc Hf). apply in_or_app. right. left. reflexivity.
Qed.

(** Witness for [C4_submission_guard]: a click while processing, then an
    attempt from [Idle] whose injection step faults. *)
Lemma C4_submission_guard_witness :
  on_send_gesture (fun _ => false) click (mkGuard true false true)
    = Intercepted (mkGuard true false true) []
  /\ fst (handleSubmitAttempt (fun s => match s with InjectContext => true | _ => false end)
            enter (mkGuard false false false)) = mkGuard false false false.
Proof.
  destruct C4_submission_guard as (H1 & _ & H3). split.
  - apply H1; reflexivity.
  - pose proof (H3 (fun s => match s with InjectContext => true | _ => false end)
                  enter (mkGuard false false false) eq_refl) as H.
    destruct (handleSubmitAttempt _ _ _) as [g' es]. simpl. exact (proj1 H).
Defined.

(* ------------------------------------------------------------------ *)
(** ** Context injector *)

Lemma inject_one_block : forall content h,
  paragraphs (inject_one content h)
  = match claim_block content (h_state h) with Some p => [p] | None => [] end.
Proof.
  intros content [id text r [url st ctx md shot err]].
  unfold inject_one, claim_block, context_text, title_header.
  destruct ctx as [ctx|]; destruct st;
    cbn [h_state ls_status ls_context ls_url ls_metadata ls_screenshot Status_eqb andb];
    try reflexivity.
  destruct (truthy (Some ctx) && includes content ("@link " ++ url)); [|reflexivity].
  destruct shot, md as [[[title|] desc e]|]; simpl;
    repeat match goal with |- context [if ?b then _ else _] => destruct b end;
    simpl; rewrite ?append_assoc_s; reflexivity.
Qed.

(** C5. [injectContext] appends, in the map's order, one paragraph per
    live highlight that is [done] with non-empty fetched content and whose
    [@link <url>] text is in the surface: [Context for <url>:] then the
    content, after a [# <title>] header exactly when the metadata's title
    is non-empty and differs from the description. Any other highlight
    contributes nothing. *)
Theorem C5_injected_blocks : forall content hs,
  paragraphs (fst (injectContext (Some content) hs))
  = flat_map (fun e => match claim_block content (h_state (snd e)) with
                       | Some p => [p] | None => [] end) hs
  /\ (forall h, (ls_status (h_state h) <> done
                 \/ includes content ("@link " ++ ls_url (h_state h)) = false) ->
       inject_one content h = []).
Proof.
  intros content hs. split.
  - simpl. induction hs as [|e hs IH]; simpl; [reflexivity|].
    unfold paragraphs in *. rewrite flat_map_app, IH.
    fold (paragraphs (inject_one content (snd e))). rewrite inject_one_block. reflexivity.
  - intros [id text r [url st ctx md shot err]] H. unfold inject_one; simpl in *.
    destruct ctx as [ctx|]; [|reflexivity].
    destruct H as [H|H].
    + destruct st; simpl; try reflexivity. congruence.
    + rewrite H, andb_false_r. reflexivity.
Qed.

(** Witness for [C5_injected_blocks]: a [fetching] highlight gets nothing. *)
Lemma C5_injected_blocks_witness :
  (ls_status (h_state (mkHighlight "_link_http___a" "@link http://a" (RangeIn "@link http://a" 0 14)
                         (mkLinkState "http://a" fetching None None None None))) <> done
   \/ includes "@link http://a" "@link http://a" = false)
  /\ inject_one "@link http://a"
       (mkHighlight "_link_http___a" "@link http://a" (RangeIn "@link http://a" 0 14)
          (mkLinkState "http://a" fetching None None None None)) = [].
Proof.
  assert (H : ls_status (h_state (mkHighlight "_link_http___a" "@link http://a" (RangeIn "@link http://a" 0 14)
                         (mkLinkState "http://a" fetching None None None None))) <> done
              \/ includes "@link http://a" "@link http://a" = false)
    by (left; discriminate).
  split; [exact H|]. exact (proj2 (C5_injected_blocks "@link http://a" []) _ H).
Defined.

(* ------------------------------------------------------------------ *)
(** ** The store invariant *)

Lemma updateHighlightState_nodup : forall id s hs,
  NoDup (map fst hs) -> NoDup (map fst (updateHighlightState id s hs)).
Proof.
  intros id s hs H. unfold updateHighlightState.
  destruct (map_get id hs); [apply NoDup_set|]; exact H.
Qed.

Lemma processLink_nodup : forall fetch id url cache hs,
  NoDup (map fst hs) ->
  let '(hs', _, _) := processLink fetch id url cache hs in NoDup (map fst hs').
Proof.
  intros fetch id url cache hs H. unfold processLink.
  destruct (map_get url cache).
  - apply updateHighlightState_nodup; exact H.
  - simpl. attempts fetch; repeat apply updateHighlightState_nodup; exact H.
Qed.

Lemma dispatch_fold_nodup : forall urls hs jobs,
  NoDup (map fst hs) ->
  NoDup (map fst (fst (fold_left
    (fun '(hs, jobs) url =>
       let id := generateId ("@link " ++ url) in
       match map_get id hs with
       | Some h =>
           if Status_eqb (ls_status (h_state h)) pending
           then (map_set id (set_status fetching h) hs, app jobs [(id, url)])
           else (hs, jobs)
       | None => (hs, jobs)
       end) urls (hs, jobs)))).
Proof.
  induction urls as [|u urls IH]; intros hs jobs H; simpl; [exact H|].
  destruct (map_get _ hs); [destruct (Status_eqb _ _)|]; apply IH; auto.
  apply NoDup_set; exact H.
Qed.

Lemma dispatch_nodup : forall urls hs,
  NoDup (map fst hs) -> NoDup (map fst (fst (dispatch hs urls))).
Proof. intros urls hs H. apply dispatch_fold_nodup. exact H. Qed.

Lemma run_jobs_fold_nodup : forall fetch cache jobs hs durable es0,
  NoDup (map fst hs) ->
  let '(hs', _, _) :=
    fold_left
      (fun '(hs, durable, es) '(id, url) =>
         let '(hs', _, es') := processLink (fetch url) id url cache hs in
         (hs', last (cache_writes es') durable, app es es'))
      jobs (hs, durable, es0) in
  NoDup (map fst hs').
Proof.
  intros fetch cache jobs. induction jobs as [|[id url] jobs IH]; intros hs durable es0 H; simpl.
  - exact H.
  - pose proof (processLink_nodup (fetch url) id url cache hs H) as HP.
    destruct (processLink (fetch url) id url cache hs) as [[hs' c'] es'].
    apply IH. exact HP.
Qed.

Lemma run_jobs_nodup : forall fetch jobs hs cache,
  NoDup (map fst hs) -> NoDup (map fst (fst (fst (run_jobs fetch jobs hs cache)))).
Proof.
  intros fetch jobs hs cache H.
  pose proof (run_jobs_fold_nodup fetch cache jobs hs cache [] H) as HR.
  change (let '(hs', _, _) := run_jobs fetch jobs hs cache in NoDup (map fst hs')) in HR.
  destruct (run_jobs fetch jobs hs cache) as [[hs' c'] es']. exact HR.
Qed.

Lemma processPendingLinks_inv : forall fetch st,
  store_inv st -> store_inv (fst (processPendingLinks fetch st)).
Proof.
  intros fetch st [Hnd _]. unfold processPendingLinks.
  pose proof (dispatch_nodup (pendingLinks st) (highlights st) Hnd) as HD.
  destruct (dispatch (highlights st) (pendingLinks st)) as [hs1 jobs].
  simpl in HD.
  pose proof (run_jobs_nodup fetch jobs hs1 (contextCache st) HD) as HR.
  destruct (run_jobs fetch jobs hs1 (contextCache st)) as [[hs2 c2] es].
  split; [exact HR|]. intros u [].
Qed.

Lemma updateHighlights_inv : forall surface st,
  store_inv st -> store_inv (updateHighlights surface st).
Proof.
  intros [el|] st [Hnd Hp]; [|split; assumption].
  destruct (updateHighlights_rejects (Some el) st) eqn:Erej.
  - destruct (updateHighlights_thrown el st Erej) as (T1 & T2 & T3).
    split; [apply T2; exact Hnd|].
    intros u Hu. destruct (T3 u Hu) as [Hu'|H]; [|exact H].
    destruct (Hp u Hu') as (k & h & Hk & Hurl).
    exists k, h. split; [apply T1; exact Hk|exact Hurl].
  - destruct (updateHighlights_spec el st Erej) as (hs1 & U1 & U2 & U3 & _ & U5 & _).
    split; [apply U5; exact Hnd|].
    intros u Hu. apply U3 in Hu. destruct Hu as [[Hu|(k & h & H0 & Hn & Hurl)] Hdel].
    + destruct (Hp u Hu) as (k & h & Hk & Hurl).
      assert (H1 : map_get k hs1 = Some h) by (rewrite U1, Hk; reflexivity).
      destruct (set_has k (mention_ids (textContent el))) eqn:Ek.
      * exists k, h. rewrite U2, Ek. auto.
      * exfalso. apply Hdel. exists (k, h). split; [apply map_get_In; exact H1|]. auto.
    + exists k, h. split; [|exact Hurl].
      rewrite U2, U1, H0.
      destruct (new_in_Some _ _ _ _ Hn) as (m & r & Hm & Ek & _).
      replace (set_has k (mention_ids (textContent el))) with true; [exact Hn|].
      symmetry. apply set_has_In, In_mention_ids. eauto.
Qed.

(** C6 (counterexample). Two live mentions of one URL with different text
    ([@link http://a] and [@link  http://a]); deleting the second removes
    the URL from [pendingLinks] although the first is still [pending]. *)
Lemma C6_shared_url_loses_pending :
  let st1 := updateHighlights (Some (TextNode "@link http://a @link  http://a")) empty_state in
  let st2 := updateHighlights (Some (TextNode "@link http://a")) st1 in
  length (highlights st1) = 2
  /\ pendingLinks st1 = ["http://a"]
  /\ option_map (fun h => ls_status (h_state h)) (map_get "_link_http___a" (highlights st2))
     = Some pending
  /\ pendingLinks st2 = [].
Proof. vm_compute. repeat split. Qed.

(** C6 (amended). Between operations the store holds at most one entry per
    id, and every URL in [pendingLinks] is the URL of a live highlight:
    reconciliation and [processPendingLinks] preserve this, so it holds
    after any sequence of them from the empty state. (The converse, that
    every URL with a pending highlight is in the pending set, fails.) *)
Theorem C6_store_invariant :
  (forall surface st, store_inv st -> store_inv (updateHighlights surface st))
  /\ (forall fetch st, store_inv st -> store_inv (fst (processPendingLinks fetch st)))
  /\ (forall ops, store_inv (run_ops ops empty_state)).
Proof.
  split; [exact updateHighlights_inv|split; [exact processPendingLinks_inv|]].
  intros ops. unfold run_ops.
  assert (H0 : store_inv empty_state) by (split; [constructor|intros u []]).
  revert H0. generalize empty_state.
  induction ops as [|o ops IH]; intros st Hst; simpl; [exact Hst|].
  apply IH. destruct o; [apply updateHighlights_inv|apply processPendingLinks_inv]; exact Hst.
Qed.

(** Witness for [C6_store_invariant]. *)
Lemma C6_store_invariant_witness :
  store_inv empty_state
  /\ store_inv (updateHighlights (Some (TextNode "@link http://a")) empty_state).
Proof.
  assert (H0 : store_inv empty_state) by (split; [constructor|intros u []]).
  split; [exact H0|]. exact (proj1 C6_store_invariant _ _ H0).
Defined.

(* ------------------------------------------------------------------ *)
(** ** Reconciliation is keyed by id *)




(* ------------------------------------------------------------------ *)
(** ** Lookup ids of [processPendingLinks] *)

Lemma length_app_s : forall a b : string,
  String.length (a ++ b) = String.length a + String.length b.
Proof. induction a; intros; simpl; [reflexivity | now rewrite IHa]. Qed.

















(* ------------------------------------------------------------------ *)
(** ** Further properties of the content script, the background script
    and the options popup *)

Lemma debounce_from_burst : forall w cs t,
  burst w t cs -> debounce_from w (Some (t + w)) cs = [last (t :: cs) 0 + w].
Proof.
  intros w cs; induction cs as [|t' cs IH]; intros t Hb; [reflexivity|].
  destruct Hb as [Hlt Hb].
  cbn [debounce_from]. rewrite (proj2 (Nat.ltb_ge (t + w) t')) by lia.
  cbn [app]. rewrite (IH t' Hb). reflexivity.
Qed.

(** X1: a burst of mutations each less than 100 ms after the one before
    gives exactly one reconciliation pass, 100 ms after the last one. *)
Theorem X1_handleMutation_burst : forall t calls,
  burst 100 t calls -> handleMutation (t :: calls) = [last (t :: calls) 0 + 100].
Proof.
  intros t calls Hb. unfold handleMutation, debounce. cbn [debounce_from app].
  exact (debounce_from_burst 100 calls t Hb).
Qed.

Lemma X1_handleMutation_burst_witness :
  burst 100 5 [50; 120; 200] /\ handleMutation [5; 50; 120; 200] = [300].
Proof.
  split; [cbn; lia|].
  exact (X1_handleMutation_burst 5 [50; 120; 200] ltac:(cbn; lia)).
Defined.

Lemma debounce_from_split : forall w xs x y ys timeout,
  x + w < y ->
  debounce_from w timeout (app xs (x :: y :: ys))
  = app (debounce_from w timeout (app xs [x])) (debounce w (y :: ys)).
Proof.
  intros w xs; induction xs as [|a xs IH]; intros x y ys timeout Hgap.
  - cbn [app debounce_from]. unfold debounce. cbn [debounce_from].
    rewrite (proj2 (Nat.ltb_lt (x + w) y)) by lia.
    rewrite <- app_assoc. reflexivity.
  - cbn [app debounce_from]. rewrite IH by exact Hgap.
    rewrite app_assoc. reflexivity.
Qed.

(** X2: calls separated by a quiet gap longer than [wait] are debounced
    independently: the runs of the calls before the gap, then those of
    the calls after it. *)
Theorem X2_debounce_gap_split : forall wait xs x y ys,
  x + wait < y ->
  debounce wait (app xs (x :: y :: ys))
  = app (debounce wait (app xs [x])) (debounce wait (y :: ys)).
Proof.
  intros wait xs x y ys Hgap. exact (debounce_from_split wait xs x y ys None Hgap).
Qed.

Lemma X2_debounce_gap_split_witness :
  1 + 100 < 500 /\
  debounce 100 [0; 1; 500; 550] = app (debounce 100 [0; 1]) (debounce 100 [500; 550]).
Proof.
  split; [lia|].
  exact (X2_debounce_gap_split 100 [0] 1 500 [550] ltac:(lia)).
Defined.

(** X3: a [keydown] starts a submission exactly when the bypass flag is
    off, the key is Enter without Shift and the focus is in the input;
    Space always, and Enter otherwise, only flush the pending links;
    every other key does nothing. *)
Theorem X3_keydown_routing : forall bypass focus e,
  (on_keydown bypass focus e = [RSubmit enter] <->
     bypass = false /\ key e = "Enter" /\ shiftKey e = false /\ focus = true)
  /\ (key e = " " -> on_keydown bypass focus e = [RProcessPending])
  /\ (key e = "Enter" ->
        on_keydown bypass focus e = [RSubmit enter] \/ on_keydown bypass focus e = [RProcessPending])
  /\ (key e <> " " -> key e <> "Enter" -> on_keydown bypass focus e = []).
Proof.
  intros bypass focus [k sh]. unfold on_keydown; cbn [key shiftKey].
  destruct (String.eqb k "Enter") eqn:HE;
    [apply String.eqb_eq in HE; subst k | apply String.eqb_neq in HE].
  - destruct bypass, sh, focus; cbn; repeat split; intuition congruence.
  - rewrite andb_false_r, !andb_false_l, orb_false_r.
    destruct (String.eqb k " ") eqn:HS;
      [apply String.eqb_eq in HS; subst k | apply String.eqb_neq in HS].
    + repeat split; intros; try congruence; intuition congruence.
    + repeat split; intros; try congruence; intuition congruence.
Qed.

(** X4: the event [triggerNativeSubmission] dispatches during a
    submission (after the bypass flag was set) is never intercepted
    again: a synthetic Enter only flushes the pending links, a click
    reaches the page untouched; without a send button nothing is
    dispatched. *)
Theorem X4_native_not_reintercepted : forall t g button input focus,
  map (react (shouldBypassInterception (guard_after 4 t g)) focus)
      (triggerNativeSubmission button input t)
  = if button then match t with
                   | enter => if input then [[RProcessPending]] else []
                   | click => [[]]
                   end
    else [].
Proof.
  intros t g button input focus.
  assert (HB : shouldBypassInterception (guard_after 4 t g) = true)
    by (destruct t; reflexivity).
  rewrite HB. destruct button, t, input; reflexivity.
Qed.

Lemma getApp_calls_ready : forall post bg a,
  bg_app bg = Some a -> getApp_calls post bg = map (fun _ => Ok a) post.
Proof.
  induction post as [|o post IH]; intros bg a H; [reflexivity|].
  cbn [getApp_calls map]. unfold getApp. rewrite H. f_equal. apply IH; exact H.
Qed.

(** X5: the background reads the API key until one is set and then never
    again: every [getApp] call before a truthy key is stored fails with
    "Firecrawl API key not found"; the first call that finds a key builds
    the client, and every later call returns that client, whatever the
    storage holds by then. *)
Theorem X5_getApp_key_read_once : forall opts fa pre k post,
  Forall (fun o => truthy o = false) pre ->
  truthy (Some k) = true ->
  getApp_calls (app pre (Some k :: post)) (mkBackground opts fa None)
  = app (map (fun _ => Throw "Firecrawl API key not found") pre)
        (Ok k :: map (fun _ => Ok k) post).
Proof.
  intros opts fa pre k post Hpre Hk. revert fa.
  induction Hpre as [|o pre Ho Hpre IH]; intro fa.
  - cbn [app getApp_calls map]. unfold getApp, getApiKey. cbn [bg_app].
    rewrite Hk. f_equal. apply getApp_calls_ready. reflexivity.
  - cbn [app getApp_calls map]. unfold getApp at 1. cbn [bg_app bg_options].
    assert (HT : getApiKey o = Throw "Firecrawl API key not found").
    { unfold getApiKey. destruct o as [s|]; [rewrite Ho|]; reflexivity. }
    rewrite HT. f_equal. apply IH.
Qed.

Lemma X5_getApp_key_read_once_witness :
  getApp_calls [None; Some ""; Some "fc-1"; Some "fc-2"; None]
    (mkBackground default_options false None)
  = [Throw "Firecrawl API key not found"; Throw "Firecrawl API key not found";
     Ok "fc-1"; Ok "fc-1"; Ok "fc-1"].
Proof.
  exact (X5_getApp_key_read_once default_options false [None; Some ""] "fc-1"
           [Some "fc-2"; None]
           ltac:(repeat constructor) eq_refl).
Defined.

(** X6: [scrapeUrl] calls Firecrawl at most once, for the given URL with the
    options built from the wrapper's current options, and never changes
    those options. It makes no call exactly when no client exists yet and
    no truthy key is stored, and then answers with the error
    "Firecrawl API key not found". A success result is always the
    processed Firecrawl response. *)
Theorem X6_scrapeUrl_calls : forall key fc url bg,
  let '(bg', calls, r) := scrapeUrl key fc url bg in
  bg_options bg' = bg_options bg
  /\ (calls = [] \/ calls = [(url, scrapeOptions_of (bg_options bg))])
  /\ (calls = [] <-> bg_app bg = None /\ truthy key = false)
  /\ (calls = [] -> r = ScrapeErr "Firecrawl API key not found")
  /\ (forall p, r = ScrapeOk p ->
        exists resp, fc = FValue resp /\ fr_success resp = true /\ p = processResponse resp).
Proof.
  intros key fc url [opts fa ap]. unfold scrapeUrl, getApp. cbn [bg_app bg_options].
  destruct ap as [a|].
  - destruct fc as [resp|m]; [destruct (fr_success resp) eqn:Hs|]; cbn [bg_options];
      repeat split; intros; try discriminate; try (right; reflexivity);
      try (destruct H; discriminate).
    + injection H as <-. exists resp; auto.
  - unfold getApiKey.
    destruct key as [k|]; [destruct (truthy (Some k)) eqn:Hk|].
    + destruct fc as [resp|m]; [destruct (fr_success resp) eqn:Hs|]; cbn [bg_options];
        repeat split; intros; try discriminate; try (right; reflexivity);
        try (destruct H; congruence).
      injection H as <-. exists resp; auto.
    + cbn [bg_options]; repeat split; intros; try discriminate; auto.
    + cbn [bg_options]; repeat split; intros; try discriminate; auto.
Qed.

Lemma append_empty_r_s : forall s : string, s ++ "" = s.
Proof. induction s; simpl; [reflexivity | now rewrite IHs]. Qed.

Lemma screenshot_prefix : forall s,
  String.prefix "data:" ("data:image/png;base64," ++ s) = true.
Proof. intros; reflexivity. Qed.

(** X7: the screenshot link [processResponse] appends always points at a
    [data:] URL: a value that already is one is kept as it is, any other
    gets the PNG base64 prefix, so applying the conversion twice is
    applying it once. The scraped markdown itself is kept whole, after the
    extracted summary and before the screenshot link, and the metadata
    defaults to the empty object. *)
Theorem X7_processResponse_shape : forall r,
  (forall s, String.prefix "data:" (screenshot_url s) = true
             /\ screenshot_url (screenshot_url s) = screenshot_url s
             /\ (String.prefix "data:" s = true -> screenshot_url s = s))
  /\ exists pre suf,
       markdown (processResponse r) = pre ++ override (fr_markdown r) "" ++ suf
       /\ (fr_extract r = None -> pre = "")
       /\ (truthy (fr_screenshot r) = false -> suf = "")
       /\ (fr_metadata r = None -> metadata (processResponse r) = empty_metadata).
Proof.
  intro r. split.
  - intro s. unfold screenshot_url.
    destruct (String.prefix "data:" s) eqn:Hp.
    + rewrite Hp. auto.
    + cbv iota. rewrite !screenshot_prefix. cbv iota. split; [reflexivity|split; [reflexivity|discriminate]].
  - unfold processResponse; cbn [markdown metadata].
    exists (match fr_extract r with Some x => formatExtractedData x ++ nl ++ nl | None => "" end).
    exists (if truthy (fr_screenshot r)
            then nl ++ nl ++ "![Page Screenshot](" ++ screenshot_url (override (fr_screenshot r) "") ++ ")"
            else "").
    repeat split.
    + destruct (fr_extract r), (truthy (fr_screenshot r));
        cbn [String.append]; rewrite ?append_empty_r_s, ?append_assoc_s; reflexivity.
    + intro H; rewrite H; reflexivity.
    + intro H; rewrite H; reflexivity.
    + intro H; rewrite H; reflexivity.
Qed.

Lemma append_empty_l_s : forall s : string, "" ++ s = s.
Proof. reflexivity. Qed.

Lemma key_points_fold : forall ps md,
  fold_left (fun md point => md ++ "- " ++ point ++ nl) ps md
  = md ++ cat (map (fun p => "- " ++ p ++ nl) ps).
Proof.
  induction ps as [|p ps IH]; intro md; cbn [fold_left map cat].
  - rewrite append_empty_r_s; reflexivity.
  - rewrite IH, !append_assoc_s. reflexivity.
Qed.

(** X8: [formatExtractedData] starts with the title header, the summary
    section and the key-points heading, followed by one line [- point]
    per key point in order; with neither technical details nor pricing
    that is the whole output. *)
Theorem X8_formatExtractedData_prefix : forall x,
  exists rest,
    formatExtractedData x
    = "# " ++ title x ++ nl ++ nl ++ "## Summary" ++ nl ++ summary x ++ nl ++ nl
      ++ "## Key Points" ++ nl ++ cat (map (fun p => "- " ++ p ++ nl) (keyPoints x)) ++ rest
    /\ (technicalDetails x = None -> pricing x = None -> rest = "").
Proof.
  intros [t s kp td pr]. unfold formatExtractedData; cbn [title summary keyPoints technicalDetails pricing].
  rewrite key_points_fold.
  exists ((match td with
           | Some td => nl ++ "## Technical Details" ++ nl
                          ++ list_section "### Technologies" (technologies td)
                          ++ list_section "### APIs" (apis td)
                          ++ list_section "### Frameworks" (frameworks td)
           | None => "" end)
          ++ (match pr with
              | Some p => nl ++ "## Pricing" ++ nl
                  ++ "- Model: " ++ model p ++ nl
                  ++ "- Free Option: " ++ (if hasFreeOption p then "Yes" else "No") ++ nl
                  ++ (if truthy (startingPrice p)
                      then "- Starting Price: " ++ override (startingPrice p) "" ++ nl else "")
              | None => "" end)).
  split.
  - destruct td, pr;
      rewrite ?append_empty_l_s, ?append_empty_r_s, ?append_assoc_s; reflexivity.
  - intros -> ->. reflexivity.
Qed.

Lemma join_lines : forall (f : string -> string) x xs,
  join nl (map f (x :: xs)) ++ nl = cat (map (fun t => f t ++ nl) (x :: xs)).
Proof.
  intros f x xs; revert x; induction xs as [|y xs IH]; intro x.
  - cbn [map join cat]. rewrite append_empty_r_s. reflexivity.
  - specialize (IH y). cbn [map join cat] in *.
    rewrite !append_assoc_s, IH. rewrite !append_assoc_s. reflexivity.
Qed.

(** X9: a technical-details list is printed as its heading line followed
    by one line [- item] per item; an empty list still prints the heading,
    followed by an empty line. *)
Theorem X9_list_section_lines : forall heading l,
  list_section heading (Some l)
  = heading ++ nl ++ match l with
                     | [] => nl
                     | _ => cat (map (fun t => "- " ++ t ++ nl) l)
                     end.
Proof.
  intros heading [|x xs]; unfold list_section.
  - reflexivity.
  - rewrite join_lines. reflexivity.
Qed.

Lemma cat_app : forall a b, cat (app a b) = cat a ++ cat b.
Proof.
  induction a as [|x a IH]; intro b; cbn [app cat]; [reflexivity|].
  rewrite IH, append_assoc_s. reflexivity.
Qed.

Lemma textContent_cat : forall n, textContent n = cat (text_nodes n).
Proof.
  apply Node_ind'.
  - intro s. cbn. rewrite append_empty_r_s. reflexivity.
  - intros cs H. induction H as [|c cs Hc Hcs IH]; [reflexivity|].
    cbn [textContent text_nodes] in *. rewrite cat_app, <- IH, <- Hc. reflexivity.
Qed.

Lemma find_list_app : forall i a b cur,
  find_list i (app a b) cur
  = match find_list i a cur with inr r => inr r | inl c => find_list i b c end.
Proof.
  induction a as [|x a IH]; intros b cur; cbn [app find_list]; [reflexivity|].
  destruct (Nat.ltb i (cur + String.length x)); [reflexivity|]. apply IH.
Qed.

Lemma findTextNode_list : forall i n cur, findTextNode i n cur = find_list i (text_nodes n) cur.
Proof.
  intro i. apply (Node_ind' (fun n => forall cur, findTextNode i n cur = find_list i (text_nodes n) cur)).
  - intros s cur. cbn [findTextNode text_nodes find_list].
    destruct (Nat.ltb i (cur + String.length s)); reflexivity.
  - intros cs H. induction H as [|c cs Hc Hcs IH]; intro cur; [reflexivity|].
    cbn [findTextNode text_nodes] in *. rewrite find_list_app, <- Hc.
    destruct (findTextNode i c cur); [apply IH | reflexivity].
Qed.

Lemma find_list_skip : forall i pre cur,
  cur + String.length (cat pre) <= i -> find_list i pre cur = inl (cur + String.length (cat pre)).
Proof.
  induction pre as [|x pre IH]; intros cur H; cbn [find_list cat] in *.
  - cbn [String.length]; f_equal; lia.
  - rewrite length_app_s in H. rewrite (proj2 (Nat.ltb_ge i (cur + String.length x))) by lia.
    rewrite IH by lia. rewrite length_app_s. f_equal; lia.
Qed.

(** X11: when the first occurrence of the searched text starts inside a
    text node, [findRangeForMatch] places the range in that node, at the
    occurrence's offset within the node; when the occurrence runs past
    the end of that node (a mention split over several text nodes),
    [setEnd] throws [IndexSizeError] instead. *)
Theorem X11_findRange_in_node : forall el search i pre s post,
  index_of (textContent el) search = Some i ->
  text_nodes el = app pre (s :: post) ->
  String.length (cat pre) <= i < String.length (cat pre) + String.length s ->
  findRangeForMatch el search =
    if Nat.leb (i - String.length (cat pre) + String.length search) (String.length s)
    then RangeIn s (i - String.length (cat pre)) (i - String.length (cat pre) + String.length search)
    else RangeIndexSizeError.
Proof.
  intros el search i pre s post Hi Hn Hb. unfold findRangeForMatch.
  rewrite Hi, findTextNode_list, Hn, find_list_app, find_list_skip by lia.
  cbn [find_list]. rewrite (proj2 (Nat.ltb_lt i (0 + String.length (cat pre) + String.length s))) by lia.
  replace (i - (0 + String.length (cat pre))) with (i - String.length (cat pre)) by lia.
  reflexivity.
Qed.

Lemma X11_findRange_in_node_witness :
  findRangeForMatch
    (ElementNode [TextNode "see @link https://a"; ElementNode [TextNode ".io now"]])
    "@link https://a.io" = RangeIndexSizeError.
Proof.
  exact (X11_findRange_in_node
           (ElementNode [TextNode "see @link https://a"; ElementNode [TextNode ".io now"]])
           "@link https://a.io" 4 [] "see @link https://a" [".io now"]
           eq_refl eq_refl ltac:(cbn; lia)).
Defined.

(** X12: a successful scrape reaches the highlight in one attempt: on a
    cache miss, when the background has a client or a truthy key and
    Firecrawl reports success, [processLink] fetches once and stores, on
    the highlight and in the durable cache, a [done] state whose context
    is the processed markdown, whose metadata is Firecrawl's (or the empty
    object) and whose screenshot is Firecrawl's raw screenshot value. *)
Theorem X12_scrape_success_to_done : forall key resp url bg id cache hs,
  bg_app bg <> None \/ truthy key = true ->
  fr_success resp = true ->
  map_get url cache = None ->
  let s := mkLinkState url done (Some (markdown (processResponse resp)))
             (Some (override (fr_metadata resp) empty_metadata))
             (if truthy (fr_screenshot resp) then fr_screenshot resp else None) None in
  processLink (fun _ => to_response (snd (scrapeUrl key (FValue resp) url bg))) id url cache hs
  = (updateHighlightState id s hs, map_set url s cache,
     [EFetch url; EHighlight id s; ESetCache (map_set url s cache)]).
Proof.
  intros key resp url bg id cache hs Hready Hs Hc s.
  assert (HR : snd (scrapeUrl key (FValue resp) url bg) = ScrapeOk (processResponse resp)).
  { destruct bg as [o fa [a|]]; unfold scrapeUrl, getApp; cbn [bg_app bg_options].
    - rewrite Hs. reflexivity.
    - destruct Hready as [H|H]; [contradiction H; reflexivity|].
      destruct key as [k|]; [|discriminate]. unfold getApiKey. rewrite H, Hs. reflexivity. }
  rewrite HR. unfold processLink. rewrite Hc. reflexivity.
Qed.

Lemma X12_scrape_success_to_done_witness :
  let resp := mkFirecrawlResponse true None (Some "Example body") None None None in
  let s := mkLinkState "https://example.com" done (Some "Example body")
             (Some empty_metadata) None None in
  processLink (fun _ => to_response (snd (scrapeUrl (Some "fc-1") (FValue resp)
                 "https://example.com" (mkBackground default_options false None))))
    "_link_https___example_com" "https://example.com" [] []
  = ([], [("https://example.com", s)],
     [EFetch "https://example.com"; EHighlight "_link_https___example_com" s;
      ESetCache [("https://example.com", s)]]).
Proof.
  exact (X12_scrape_success_to_done (Some "fc-1")
           (mkFirecrawlResponse true None (Some "Example body") None None None)
           "https://example.com" (mkBackground default_options false None)
           "_link_https___example_com" [] [] (or_intror eq_refl) eq_refl eq_refl).
Defined.

Lemma fetch_count_app : forall a b, fetch_count (app a b) = fetch_count a + fetch_count b.
Proof. intros a b. unfold fetch_count. rewrite filter_app, length_app. reflexivity. Qed.

Lemma attempt_loop_fetches : forall n attempt fetch id url cache hs,
  let '(_, _, es) := attempt_loop n attempt fetch id url cache hs in
  fetch_count es <= n /\ (forall u, In (EFetch u) es -> u = url).
Proof.
  induction n as [|n IH]; intros attempt fetch id url cache hs; cbn [attempt_loop].
  - split; [cbn; lia | intros u []].
  - destruct (resp_data (fetch attempt)) as [d|].
    + split; [cbn; lia|]. intros u [H|[H|[H|[]]]]; congruence.
    + destruct (Nat.eqb attempt 2).
      * match goal with |- context [attempt_loop n (S attempt) fetch id url ?c ?h] =>
          pose proof (IH (S attempt) fetch id url c h) as HI;
          destruct (attempt_loop n (S attempt) fetch id url c h) as [[h2 c2] e2] end.
        destruct HI as [HI1 HI2]. rewrite fetch_count_app. split; [cbn; lia|].
        intros u Hu. apply in_app_or in Hu as [[H|[H|[H|[]]]]|H]; try congruence. auto.
      * pose proof (IH (S attempt) fetch id url cache hs) as HI.
        destruct (attempt_loop n (S attempt) fetch id url cache hs) as [[h2 c2] e2].
        destruct HI as [HI1 HI2]. rewrite fetch_count_app. split; [cbn; lia|].
        intros u Hu. apply in_app_or in Hu as [[H|[H|[]]]|H]; try congruence. auto.
Qed.

Lemma processLink_fetches : forall fetch id url cache hs,
  let '(_, _, es) := processLink fetch id url cache hs in
  fetch_count es <= 3 /\ (forall u, In (EFetch u) es -> u = url).
Proof.
  intros. unfold processLink. destruct (map_get url cache).
  - split; [cbn; lia|]. intros u [H|[]]; discriminate.
  - apply attempt_loop_fetches.
Qed.

Lemma run_jobs_fold_fetches : forall fetch cache jobs hs durable es0,
  let '(_, _, es) :=
    fold_left
      (fun '(hs, durable, es) '(id, url) =>
         let '(hs', _, es') := processLink (fetch url) id url cache hs in
         (hs', last (cache_writes es') durable, app es es'))
      jobs (hs, durable, es0) in
  fetch_count es <= fetch_count es0 + 3 * length jobs
  /\ (forall u, In (EFetch u) es -> In (EFetch u) es0 \/ exists id, In (id, u) jobs).
Proof.
  intros fetch cache jobs. induction jobs as [|[id url] jobs IH]; intros hs durable es0; simpl.
  - split; [lia | auto].
  - pose proof (processLink_fetches (fetch url) id url cache hs) as HP.
    destruct (processLink (fetch url) id url cache hs) as [[hs' c'] es'].
    destruct HP as [HP1 HP2].
    specialize (IH hs' (last (cache_writes es') durable) (app es0 es')).
    destruct (fold_left _ jobs (hs', last (cache_writes es') durable, app es0 es'))
      as [[h2 c2] e2].
    destruct IH as [IH1 IH2]. rewrite fetch_count_app in IH1. split; [lia|].
    intros u Hu. destruct (IH2 u Hu) as [H|[id' H]].
    + apply in_app_or in H as [H|H]; [left; exact H|].
      right. exists id. left. rewrite (HP2 u H). reflexivity.
    + right. exists id'. right. exact H.
Qed.

Lemma dispatch_fold_jobs : forall urls hs jobs,
  let '(_, jobs') := fold_left
    (fun '(hs, jobs) url =>
       let id := generateId ("@link " ++ url) in
       match map_get id hs with
       | Some h =>
           if Status_eqb (ls_status (h_state h)) pending
           then (map_set id (set_status fetching h) hs, app jobs [(id, url)])
           else (hs, jobs)
       | None => (hs, jobs)
       end) urls (hs, jobs) in
  length jobs' <= length jobs + length urls
  /\ (forall id u, In (id, u) jobs' -> In (id, u) jobs \/ In u urls).
Proof.
  induction urls as [|u urls IH]; intros hs jobs; simpl.
  - split; [lia | auto].
  - destruct (map_get _ hs) as [h|]; [destruct (Status_eqb _ _)|].
    + match goal with |- context [fold_left ?f urls (?h1, ?j1)] =>
        specialize (IH h1 j1); simpl in IH; destruct (fold_left f urls (h1, j1)) as [h2 j2] end.
      destruct IH as [IH1 IH2]. rewrite length_app in IH1. cbn in IH1. split; [lia|].
      intros id v Hv. destruct (IH2 id v Hv) as [H|H]; [|right; right; exact H].
      apply in_app_or in H as [H|[H|[]]]; [left; exact H|].
      injection H as _ <-. right; left; reflexivity.
    + specialize (IH hs jobs). simpl in IH. destruct (fold_left _ urls (hs, jobs)) as [h2 j2].
      destruct IH as [IH1 IH2]. split; [lia|].
      intros id v Hv. destruct (IH2 id v Hv) as [H|H]; [left; exact H | right; right; exact H].
    + specialize (IH hs jobs). simpl in IH. destruct (fold_left _ urls (hs, jobs)) as [h2 j2].
      destruct IH as [IH1 IH2]. split; [lia|].
      intros id v Hv. destruct (IH2 id v Hv) as [H|H]; [left; exact H | right; right; exact H].
Qed.

(** X13: one [processPendingLinks] pass makes at most three network
    attempts per URL of the pending set, fetches only URLs of that set,
    and leaves the pending set empty. *)
Theorem X13_processPendingLinks_bounded : forall fetch st,
  let '(st', es) := processPendingLinks fetch st in
  fetch_count es <= 3 * length (pendingLinks st)
  /\ (forall u, In (EFetch u) es -> In u (pendingLinks st))
  /\ pendingLinks st' = [].
Proof.
  intros fetch st. unfold processPendingLinks, dispatch.
  pose proof (dispatch_fold_jobs (pendingLinks st) (highlights st) []) as HD.
  destruct (fold_left _ (pendingLinks st) (highlights st, [])) as [hs1 jobs].
  destruct HD as [HD1 HD2]. cbn [length] in HD1.
  pose proof (run_jobs_fold_fetches fetch (contextCache st) jobs hs1 (contextCache st) []) as HR.
  change (let '(_, _, es) := run_jobs fetch jobs hs1 (contextCache st) in
          fetch_count es <= fetch_count [] + 3 * length jobs
          /\ (forall u, In (EFetch u) es -> In (EFetch u) [] \/ exists id, In (id, u) jobs)) in HR.
  destruct (run_jobs fetch jobs hs1 (contextCache st)) as [[hs2 c2] es].
  destruct HR as [HR1 HR2]. cbn [fetch_count filter length] in HR1.
  split; [lia|]. split; [|reflexivity].
  intros u Hu. destruct (HR2 u Hu) as [[]|[id Hj]].
  destruct (HD2 id u Hj) as [[]|H]. exact H.
Qed.

Lemma inject_one_shape : forall content h,
  inject_one content h = [] \/ exists t rest, inject_one content h = IParagraph t :: rest.
Proof.
  intros content h. unfold inject_one.
  destruct (ls_context (h_state h)); [|left; reflexivity].
  destruct (_ && _ && _); [right; eauto | left; reflexivity].
Qed.

(** X14: [injectContext] reports that it injected something exactly when
    it appended at least one context paragraph to the input; without an
    input element it appends nothing and reports [false]. *)
Theorem X14_injectContext_result : forall surface hs,
  (snd (injectContext surface hs) = true <-> paragraphs (fst (injectContext surface hs)) <> [])
  /\ (surface = None -> injectContext surface hs = ([], false)).
Proof.
  intros [content|] hs; [|split; [cbn; split; [discriminate | intro H; contradiction H; reflexivity]
                                 | reflexivity]].
  split; [|discriminate]. cbn [injectContext fst snd].
  induction hs as [|e hs IH]; cbn [flat_map existsb].
  - split; [discriminate | intro H; contradiction H; reflexivity].
  - unfold paragraphs in *. rewrite flat_map_app.
    destruct (inject_one_shape content (snd e)) as [E|(t & rest & E)]; rewrite E.
    + exact IH.
    + cbn [flat_map app orb]. split; [intros _; discriminate | reflexivity].
Qed.







(** X16: with an overlay present, [renderHighlights] draws exactly one
    element per highlight, in the store's order; each element's tooltip is
    non-empty and tells the highlight's status apart from the three
    others, and its class names that status. *)
Theorem X16_render_one_per_highlight : forall hs,
  exists rs, renderHighlights true hs = Some rs
  /\ length rs = length hs
  /\ forall i e r, nth_error hs i = Some e -> nth_error rs i = Some r ->
       className r = "linksnap-highlight linksnap-" ++ status_name (ls_status (h_state (snd e)))
       /\ tooltipText r <> ""
       /\ (forall l, tooltipText r = getTooltipText l <-> ls_status l = ls_status (h_state (snd e))).
Proof.
  intro hs. eexists. split; [reflexivity|]. split; [apply length_map|].
  intros i e r He Hr. rewrite nth_error_map, He in Hr. injection Hr as <-.
  cbn [className tooltipText]. split; [reflexivity|].
  unfold getTooltipText. destruct (ls_status (h_state (snd e))); split; try discriminate;
    intro l; destruct (ls_status l); split; intro H; try discriminate; reflexivity.
Qed.
